(** * PWM packet link of [b4.py]: CRC-8, frame encoder, frame decoder, receiver loop

    Shallow embedding of the second program of [src/b4.py]
    ([calculate_crc], [send_data], [receive_data], [receive_thread_task])
    and the properties of its framing protocol.

    Python integers are [Z].  A [bytes] object is a [list Z] whose elements
    are in [0, 255]; the conversion [bytes([...])] raises [ValueError] outside
    that range and is modelled by [bytes], which returns [None] there. *)

From Stdlib Require Import ZArith List Bool Lia.
Import ListNotations.
Local Open Scope Z_scope.

(** ** Protocol constants (lines 213-221) *)

Definition START_BYTE : Z := 0xAA.
Definition END_BYTE : Z := 0x55.
Definition MAX_PWM : Z := 255.
Definition MIN_PWM : Z := 0.

(** ** Python values *)

(** An element a [bytes] object can hold. *)
Definition is_byte (b : Z) : Prop := 0 <= b <= 255.

Definition is_byteb (b : Z) : bool := (0 <=? b) && (b <=? 255).

(** [bytes(l)] for a list of integers: a copy of the list, or [ValueError]
    ([None]) when an element is outside [range(0, 256)]. *)
Definition bytes (l : list Z) : option (list Z) :=
  if forallb is_byteb l then Some l else None.

(** [np.any(arr)] on an integer array: some element is non-zero. *)
Definition np_any (arr : list Z) : bool :=
  existsb (fun x => negb (x =? 0)) arr.

(** ** CRC-8 (lines 224-239) *)

Module Crc.

(** One pass of the inner [for _ in range(8)] body. *)
Definition crc_shift (crc : Z) : Z :=
  let crc :=
    if negb (Z.land crc 0x80 =? 0)
    then Z.lxor (Z.shiftl crc 1) 0x07
    else Z.shiftl crc 1 in
  Z.land crc 0xFF.

(** One pass of the outer [for byte in data] body. *)
Definition crc_byte (crc byte : Z) : Z :=
  Nat.iter 8 crc_shift (Z.lxor crc byte).

Definition calculate_crc (data : list Z) : Z :=
  fold_left crc_byte data 0.

End Crc.

(** The checksum as section 4.1 of the specification words it: an 8-bit
    accumulator, its most significant bit tested, doubled, reduced by the
    generator constant and cut to 8 bits.  Written independently of [Crc],
    to be compared with it. *)
Module Crc8Spec.

Definition msb_set (acc : Z) : bool := Z.testbit acc 7.

Definition mask8 (x : Z) : Z := x mod 256.

Definition step (acc : Z) : Z :=
  if msb_set acc
  then mask8 (Z.lxor (2 * acc) 7)
  else mask8 (2 * acc).

Fixpoint steps (n : nat) (acc : Z) : Z :=
  match n with
  | O => acc
  | S n' => steps n' (step acc)
  end.

Fixpoint checksum_from (acc : Z) (input : list Z) : Z :=
  match input with
  | [] => acc
  | b :: rest => checksum_from (steps 8 (Z.lxor acc b)) rest
  end.

Definition checksum (input : list Z) : Z := checksum_from 0 input.

End Crc8Spec.

(** ** Sender (lines 242-292) *)

Module Sender.
Import Crc.

(** How a call ends: normally, or by a [ValueError] escaping it. *)
Inductive completion : Type :=
| Returned
| ValueError.

(** The sender's port is the sequence of bytes written to it so far. *)
Definition port : Type := list Z.

(** Lines 269-273. *)
Definition clamp_pwm (pwm : Z) : Z :=
  if pwm <? MIN_PWM then MIN_PWM
  else if pwm >? MAX_PWM then MAX_PWM
  else pwm.

(** Steps 1 to 5: the list [data_to_send], or [None] when
    [bytes([data_length] + pwm_values)] raises. *)
Definition data_to_send (data : list Z) : option (list Z) :=
  let data_length := Z.of_nat (length data) in
  let pwm_values := map clamp_pwm data in
  match bytes (data_length :: pwm_values) with
  | None => None
  | Some crc_data =>
      Some ([START_BYTE; data_length] ++ pwm_values
              ++ [calculate_crc crc_data; END_BYTE])
  end.

(** [ser.write(bytes([byte]))]. *)
Definition write (ser : port) (byte : Z) : completion * port :=
  match bytes [byte] with
  | None => (ValueError, ser)
  | Some b => (Returned, ser ++ b)
  end.

(** Step 6, one [write] per byte. *)
Fixpoint write_each (ser : port) (out : list Z) : completion * port :=
  match out with
  | [] => (Returned, ser)
  | byte :: out' =>
      match write ser byte with
      | (ValueError, ser') => (ValueError, ser')
      | (Returned, ser') => write_each ser' out'
      end
  end.

Definition send_data (ser : port) (data : list Z) : completion * port :=
  match data_to_send data with
  | None => (ValueError, ser)
  | Some out => write_each ser out
  end.

End Sender.

(** ** Receiver (lines 295-374) *)

Module Receiver.
Import Crc.

(** The receiver's port is the sequence of results of the successive
    [ser.read(1)] calls still to come: [Some b] delivers the byte [b],
    [None] is a read that times out (the empty [bytes]).  Once the
    sequence is exhausted every read times out. *)
Definition port : Type := list (option Z).

Definition read (ser : port) : option Z * port :=
  match ser with
  | [] => (None, [])
  | r :: ser' => (r, ser')
  end.

(** The [return] statement (or the fall-through at the end) by which
    [receive_data] leaves. *)
Inductive exit : Type :=
| StartTimeout     (* line 312 *)
| LengthTimeout    (* line 319 *)
| BadLength        (* line 324 *)
| PayloadTimeout   (* line 331 *)
| CrcTimeout       (* line 337 *)
| BadEnd           (* line 343 *)
| CrcError         (* line 352 *)
| RangeError       (* line 363 *)
| Excepted         (* line 372 *)
| CrcValid.        (* line 374 *)

(** Step 1, the [while True] loop: [true] when the start byte was read,
    [false] when a read timed out first. *)
Fixpoint wait_start (ser : port) : bool * port :=
  match ser with
  | [] => (false, [])
  | None :: ser' => (false, ser')
  | Some byte :: ser' =>
      if byte =? START_BYTE then (true, ser') else wait_start ser'
  end.

(** Step 3, the [for _ in range(data_length)] loop: the values read, or
    [None] when a read timed out. *)
Fixpoint read_pwm (n : nat) (ser : port) (pwm_values : list Z)
  : option (list Z) * port :=
  match n with
  | O => (Some pwm_values, ser)
  | S n' =>
      match read ser with
      | (None, ser') => (None, ser')
      | (Some pwm_byte, ser') => read_pwm n' ser' (pwm_values ++ [pwm_byte])
      end
  end.

(** Step 7: some value fails the range validation. *)
Definition out_of_range (pwm_values : list Z) : bool :=
  existsb (fun pwm => (pwm <? MIN_PWM) || (pwm >? MAX_PWM)) pwm_values.

(** Steps 2 to 8, entered once the start byte has been read: the exit
    taken, the array and acknowledgement returned, the port left behind. *)
Definition read_packet (ser : port) : exit * list Z * bool * port :=
  match read ser with
  | (None, ser) => (LengthTimeout, [], false, ser)
  | (Some data_length, ser) =>
  if (data_length =? 0) || (data_length >? 200)
  then (BadLength, [], false, ser)
  else
  match read_pwm (Z.to_nat data_length) ser [] with
  | (None, ser) => (PayloadTimeout, [], false, ser)
  | (Some pwm_values, ser) =>
  match read ser with
  | (None, ser) => (CrcTimeout, [], false, ser)
  | (Some received_crc, ser) =>
  match read ser with
  | (None, ser) => (BadEnd, [], false, ser)
  | (Some end_byte, ser) =>
  if negb (end_byte =? END_BYTE)
  then (BadEnd, [], false, ser)
  else
  match bytes (data_length :: pwm_values) with
  | None => (Excepted, [], false, ser)
  | Some crc_data =>
  if negb (calculate_crc crc_data =? received_crc)
  then (CrcError, pwm_values, false, ser)
  else if out_of_range pwm_values
  then (RangeError, pwm_values, false, ser)
  else (CrcValid, pwm_values, true, ser)
  end end end end end.

(** [receive_data] together with the exit it took and the port it leaves
    behind. *)
Definition receive_at (ser : port) : exit * list Z * bool * port :=
  match wait_start ser with
  | (false, ser) => (StartTimeout, [], false, ser)
  | (true, ser) => read_packet ser
  end.

(** The exit component of [receive_at]'s result. *)
Definition exit_of (r : exit * list Z * bool * port) : exit :=
  let '(x, _, _, _) := r in x.

(** What the caller sees: the array, the acknowledgement, the port. *)
Definition receive_data (ser : port) : list Z * bool * port :=
  let '(_, received_pwm_data, acknowledgement, ser) := receive_at ser in
  (received_pwm_data, acknowledgement, ser).

End Receiver.

(** A lossless link: every byte written is delivered, in order, by one read. *)
Definition lossless (wire : Sender.port) : Receiver.port := map Some wire.

(** ** Receiver task (lines 377-398) *)

Module Task.
Import Receiver.

Record state : Type := mk_state {
  received_data : list (list Z);
  no_of_success : Z;
  no_of_tries : Z;
  ser : port
}.

(** The [while] condition of line 381. *)
Definition running (st : state) : bool :=
  (Z.of_nat (length (received_data st)) <? 100) && (no_of_tries st <? 150).

(** Lines 384-393: one decode attempt and its bookkeeping. *)
Definition attempt (st : state) : state :=
  let '(received_arr, acknowledgement, ser') := receive_data (ser st) in
  let st :=
    if np_any received_arr || acknowledgement then
      let received_data' := received_data st ++ [received_arr] in
      if acknowledgement
      then mk_state received_data' (no_of_success st + 1) (no_of_tries st) ser'
      else mk_state received_data' (no_of_success st) (no_of_tries st) ser'
    else mk_state (received_data st) (no_of_success st) (no_of_tries st) ser' in
  mk_state (received_data st) (no_of_success st) (no_of_tries st + 1) (ser st).

(** The [while] loop, [None] when the fuel runs out before it ends. *)
Fixpoint while_running (fuel : nat) (st : state) : option state :=
  if running st then
    match fuel with
    | O => None
    | S fuel' => while_running fuel' (attempt st)
    end
  else Some st.

(** [receive_thread_task(received_data, no_of_success)] on an opened
    port; [no_of_tries] starts at 0, so 150 passes are enough. *)
Definition receive_thread_task (received_data : list (list Z))
    (no_of_success : Z) (ser : port) : option state :=
  while_running 150 (mk_state received_data no_of_success 0 ser).

End Task.

(** ** Inputs and observations used to state the properties *)

(** Byte [b] with bit [k] inverted. *)
Definition flip_bit (k : Z) (b : Z) : Z := Z.lxor b (Z.shiftl 1 k).

(** The wire with bit [k] of its byte at index [i] inverted. *)
Fixpoint flip_at (i : nat) (k : Z) (wire : list Z) : list Z :=
  match wire, i with
  | [], _ => []
  | b :: wire', O => flip_bit k b :: wire'
  | b :: wire', S i' => b :: flip_at i' k wire'
  end.

(** The bytes of a packet in wire order: start byte, length, values,
    checksum byte, end byte. *)
Definition packet (data_length : Z) (pwm_values : list Z) (crc end_byte : Z)
  : list Z :=
  [START_BYTE; data_length] ++ pwm_values ++ [crc; end_byte].

(** What the first [n] calls of [receive_data] on a port return. *)
Fixpoint outcomes (n : nat) (ser : Receiver.port) : list (list Z * bool) :=
  match n with
  | O => []
  | S n' =>
      let '(received_arr, acknowledgement, ser') := Receiver.receive_data ser in
      (received_arr, acknowledgement) :: outcomes n' ser'
  end.

(** The test of line 386 on one outcome. *)
Definition recorded (o : list Z * bool) : bool := np_any (fst o) || snd o.

(** A hundred well-framed packets [AA 01 01 00 55], each with a checksum
    byte that is not the CRC of its content. *)
Definition crc_failures : Receiver.port :=
  map Some (concat (repeat [START_BYTE; 1; 1; 0; END_BYTE] 100)).

(** Every read of the port that delivers something delivers a byte. *)
Definition byte_reads (ser : Receiver.port) : Prop :=
  Forall (fun r => forall b, r = Some b -> is_byte b) ser.

(** How the state [st'] in which the loop stops relates to the state [st]
    in which it was entered, [n] being the number of passes made. *)
Definition loop_post (st st' : Task.state) (n : nat) : Prop :=
  let os := outcomes n (Task.ser st) in
  Task.received_data st'
  = Task.received_data st ++ map fst (filter recorded os) /\
  Task.no_of_success st'
  = Task.no_of_success st + Z.of_nat (length (filter snd os)) /\
  Task.no_of_tries st' = Task.no_of_tries st + Z.of_nat n /\
  Task.running st' = false /\
  ((length (Task.received_data st) <= 100)%nat ->
   (length (Task.received_data st') <= 100)%nat) /\
  (Task.no_of_tries st <= 150 -> Task.no_of_tries st' <= 150) /\
  (forall m, (m < n)%nat ->
     (length (Task.received_data st)
      + length (filter recorded (outcomes m (Task.ser st))) < 100)%nat /\
     Task.no_of_tries st + Z.of_nat m < 150).

(** ** Sender task (lines 400-408) *)

Module SenderTask.
Import Sender.

(** [send_thread_task(all_data)] on an opened port: the [for] loop over the
    payloads.  A [ValueError] escaping [send_data] is caught by the
    [except] of line 407, which ends the task: the port stays as it was at
    that point and the remaining payloads are not sent. *)
Fixpoint send_thread_task (ser : port) (all_data : list (list Z)) : port :=
  match all_data with
  | [] => ser
  | data :: all_data' =>
      match send_data ser data with
      | (Returned, ser') => send_thread_task ser' all_data'
      | (ValueError, ser') => ser'
      end
  end.

End SenderTask.

(** ** More inputs and observations *)

(** What [send_data] writes for one payload on a fresh port. *)
Definition wire_of (data : list Z) : list Z := snd (Sender.send_data [] data).

(** The packet of a payload, byte by byte: the start byte 0xAA, the
    number of values, the values clamped into 0..255, the CRC-8 of count
    and clamped values, the end byte 0x55. *)
Definition packet_of (data : list Z) : list Z :=
  [START_BYTE; Z.of_nat (length data)]
    ++ map Sender.clamp_pwm data
    ++ [Crc.calculate_crc (Z.of_nat (length data) :: map Sender.clamp_pwm data);
        END_BYTE].

(** The wire with its byte at index [i] XORed with [d]. *)
Fixpoint xor_at (i : nat) (d : Z) (wire : list Z) : list Z :=
  match wire, i with
  | [], _ => []
  | b :: wire', O => Z.lxor b d :: wire'
  | b :: wire', S i' => b :: xor_at i' d wire'
  end.

(** Element-wise XOR of two byte strings. *)
Fixpoint xor_bytes (a b : list Z) : list Z :=
  match a, b with
  | x :: a', y :: b' => Z.lxor x y :: xor_bytes a' b'
  | _, _ => []
  end.

(** ** CAN frame validator (lines 1-176) *)

Module Can.

(** Lines 5-6. *)
Definition CRC_POLYNOMIAL : Z := 0x4599.
Definition CRC_WIDTH : nat := 15.

(** [[(value >> (width - 1 - i)) & 1 for i in range(width)]]: the
    comprehensions of lines 31 and 40 and the loop of lines 48-49. *)
Definition bits_of (width : nat) (value : Z) : list Z :=
  map (fun i => Z.land (Z.shiftr value (Z.of_nat (width - 1 - i))) 1)
      (seq 0 width).

(** Lines 80-82: the sixteen bits of the polynomial constant. *)
Definition poly_bits : list Z :=
  map (fun i => Z.land (Z.shiftr CRC_POLYNOMIAL (Z.of_nat (CRC_WIDTH - i))) 1)
      (seq 0 (CRC_WIDTH + 1)).

(** [l[i] ^= v]; [None] is the [IndexError] of an index past the end. *)
Fixpoint xor_item (l : list Z) (i : nat) (v : Z) : option (list Z) :=
  match l, i with
  | [], _ => None
  | x :: l', O => Some (Z.lxor x v :: l')
  | x :: l', S i' =>
      match xor_item l' i' v with
      | None => None
      | Some l'' => Some (x :: l'')
      end
  end.

(** Lines 88-89, the inner loop from index [j] on: [pbits] holds
    [poly_bits[j:]]. *)
Fixpoint xor_poly (extended_bits : list Z) (i j : nat) (pbits : list Z)
  : option (list Z) :=
  match pbits with
  | [] => Some extended_bits
  | pb :: pbits' =>
      match xor_item extended_bits (i + j) pb with
      | None => None
      | Some extended_bits' => xor_poly extended_bits' i (S j) pbits'
      end
  end.

(** Lines 85-89, the outer loop: [n] passes starting at index [i]. *)
Fixpoint divide (extended_bits : list Z) (i n : nat) : option (list Z) :=
  match n with
  | O => Some extended_bits
  | S n' =>
      match nth_error extended_bits i with
      | None => None
      | Some bit =>
          if bit =? 1 then
            match xor_poly extended_bits i 0 poly_bits with
            | None => None
            | Some extended_bits' => divide extended_bits' (S i) n'
            end
          else divide extended_bits (S i) n'
      end
  end.

(** Lines 92-94: [n] passes reading from index [i] on. *)
Fixpoint collect (extended_bits : list Z) (i n : nat) (crc_value : Z)
  : option Z :=
  match n with
  | O => Some crc_value
  | S n' =>
      match nth_error extended_bits i with
      | None => None
      | Some bit =>
          collect extended_bits (S i) n' (Z.lor (Z.shiftl crc_value 1) bit)
      end
  end.

(** [calculate_crc(data_bits)] of line 64; [None] when an index is out of
    range. *)
Definition calculate_crc (data_bits : list Z) : option Z :=
  let extended_bits := data_bits ++ repeat 0 CRC_WIDTH in
  match divide extended_bits 0 (length data_bits) with
  | None => None
  | Some extended_bits => collect extended_bits (length data_bits) CRC_WIDTH 0
  end.

(** The integers [parse_can_frame] converts the fields of a row to: the
    [id], [ide], [rtr], [dlc] and [crc] columns and the whitespace-separated
    bytes of the [data] column (none when the column is blank). *)
Record row : Type := mk_row {
  row_id : Z;
  row_ide : Z;
  row_rtr : Z;
  row_dlc : Z;
  row_data : list Z;
  row_crc : Z
}.

(** The dictionary [parse_can_frame] returns (lines 17-63), without the
    strings it only copies.  The conversions [int(..., 16)] and [int(...)]
    of lines 22, 34, 35, 38, 45 and 58 are taken as done: [row] holds their
    results. *)
Record frame : Type := mk_frame {
  id_value : Z;
  id_valid : bool;
  id_bits : option (list Z);
  ide : Z;
  rtr_bits : list Z;
  dlc_valid : bool;
  dlc_bits : list Z;
  data_bits : list Z;
  data_length_match : bool;
  expected_crc : Z
}.

Definition parse_can_frame (r : row) : frame :=
  let frame_id := row_id r in
  let dlc := row_dlc r in
  let data_bytes := row_data r in
  {| id_value := frame_id;
     id_valid := negb (frame_id >? 0x7FF);
     id_bits := if frame_id >? 0x7FF then None else Some (bits_of 11 frame_id);
     ide := row_ide r;
     rtr_bits := [row_rtr r];
     dlc_valid := (0 <=? dlc) && (dlc <=? 8);
     dlc_bits := bits_of 4 dlc;
     data_bits := flat_map (bits_of 8) data_bytes;
     data_length_match := Z.of_nat (length data_bytes) =? dlc;
     expected_crc := row_crc r |}.

(** The verdicts of lines 140-150. *)
Inductive error_type : Type :=
| mismatch_of_dlc_and_data_frame
| bad_crc
| none
| bad_id
| bad_dlc.

(** Line 130. *)
Definition all_bits (f : frame) (idb : list Z) : list Z :=
  idb ++ rtr_bits f ++ [ide f] ++ [0] ++ dlc_bits f ++ data_bits f.

(** Lines 125-150 for one parsed frame: the verdict printed.  [None]
    stands for the ways of not reaching the print with a verdict of this
    row: [calculate_crc] raising, [id_bits] being [None] at line 130, or
    neither branch of lines 147-150 assigning [error_type]. *)
Definition verdict (f : frame) : option error_type :=
  if id_valid f && dlc_valid f then
    match id_bits f with
    | None => None
    | Some idb =>
        match calculate_crc (all_bits f idb) with
        | None => None
        | Some calculated_crc =>
            let crc_match := calculated_crc =? expected_crc f in
            if negb (data_length_match f) then
              Some mismatch_of_dlc_and_data_frame
            else if negb crc_match then Some bad_crc
            else Some none
        end
    end
  else if negb (id_valid f) then Some bad_id
  else if negb (dlc_valid f) then Some bad_dlc
  else None.

End Can.

(** The integer a bit string spells, most significant bit first, built as
    lines 92-94 build [crc_value]. *)
Definition bits_value (bits : list Z) : Z :=
  fold_left (fun v b => Z.lor (Z.shiftl v 1) b) bits 0.

(** A value that is a bit. *)
Definition is_bit (b : Z) : Prop := b = 0 \/ b = 1.

(** [cur] with its first [length pbits] items XORed with [pbits]. *)
Fixpoint xor_prefix (pbits cur : list Z) : list Z :=
  match pbits, cur with
  | pb :: pbits', x :: cur' => Z.lxor x pb :: xor_prefix pbits' cur'
  | _, _ => cur
  end.

(** The division of lines 85-89 told on the part of [extended_bits] not
    yet passed: [n] passes, each dropping the item at the front. *)
Fixpoint remainder_bits (n : nat) (cur : list Z) : list Z :=
  match n with
  | O => cur
  | S n' =>
      match cur with
      | [] => []
      | bit :: cur' =>
          remainder_bits n'
            (if bit =? 1 then tl (xor_prefix Can.poly_bits cur) else cur')
      end
  end.

(** The polynomial over GF(2) a bit string spells, highest degree first. *)
Fixpoint poly_of_bits (bits : list Z) : Z :=
  match bits with
  | [] => 0
  | b :: bits' =>
      Z.lxor (Z.shiftl b (Z.of_nat (length bits'))) (poly_of_bits bits')
  end.

(** The generator of the CAN CRC, [x^15 + x^14 + x^10 + x^8 + x^7 + x^4 +
    x^3 + 1]: the constant of line 5 under a leading [x^15]. *)
Definition CAN_GENERATOR : Z := 0xC599.

(** A payload the receiver accepts: 1 to 200 values, each a byte. *)
Definition sendable (p : list Z) : Prop :=
  (1 <= length p <= 200)%nat /\ Forall is_byte p.

(** ** Polynomials over GF(2)

    A polynomial is the non-negative integer whose bit [i] is the
    coefficient of [x^i]: addition is [Z.lxor], multiplication by [x^k] is
    [Z.shiftl _ k]. *)

Module Gf2.

(** The generator [x^8 + x^2 + x + 1], whose low byte is the constant 0x07
    of [calculate_crc]. *)
Definition GENERATOR : Z := 0x107.

(** Product of the polynomials [q] and [g] (carry-less multiplication). *)
Fixpoint clmul_pos (q : positive) (g : Z) : Z :=
  match q with
  | xH => g
  | xO q' => Z.shiftl (clmul_pos q' g) 1
  | xI q' => Z.lxor (Z.shiftl (clmul_pos q' g) 1) g
  end.

Definition clmul (q g : Z) : Z :=
  match q with
  | Zpos q' => clmul_pos q' g
  | _ => 0
  end.

(** The message as a polynomial: first byte first, within a byte the most
    significant bit first. *)
Definition message_poly (data : list Z) : Z :=
  fold_left (fun m b => Z.lxor (Z.shiftl m 8) b) data 0.

End Gf2.

(** * Properties *)

(** ** Bytes *)

Lemma is_byteb_true (b : Z) : is_byteb b = true <-> is_byte b.
Proof.
  unfold is_byteb, is_byte.
  rewrite andb_true_iff, Z.leb_le, Z.leb_le. reflexivity.
Qed.

Lemma forallb_is_byteb (l : list Z) :
  forallb is_byteb l = true <-> Forall is_byte l.
Proof.
  rewrite forallb_forall, Forall_forall.
  split; intros H x Hx; apply is_byteb_true, H, Hx.
Qed.

Lemma bytes_of_bytes (l : list Z) : Forall is_byte l -> bytes l = Some l.
Proof.
  intros H. unfold bytes.
  apply forallb_is_byteb in H. rewrite H. reflexivity.
Qed.

Lemma bytes_Some_inv (l l' : list Z) :
  bytes l = Some l' -> l' = l /\ Forall is_byte l.
Proof.
  unfold bytes. destruct (forallb is_byteb l) eqn:E; [|discriminate].
  intros [= <-]. split; [reflexivity | apply forallb_is_byteb, E].
Qed.

(** ** The checksum *)

Section CrcFacts.
Import Crc.

Lemma land_0x80_msb (crc : Z) :
  negb (Z.land crc 0x80 =? 0) = Z.testbit crc 7.
Proof.
  change 0x80 with (2 ^ 7).
  destruct (Z.testbit crc 7) eqn:E.
  - apply negb_true_iff, Z.eqb_neq. intros H0.
    assert (Hb : Z.testbit (Z.land crc (2 ^ 7)) 7 = true).
    { rewrite Z.land_spec, E. reflexivity. }
    rewrite H0 in Hb. rewrite Z.bits_0 in Hb. discriminate.
  - apply negb_false_iff, Z.eqb_eq.
    apply Z.bits_inj'. intros n Hn.
    rewrite Z.land_spec, Z.bits_0, Z.pow2_bits_eqb by lia.
    destruct (Z.eqb_spec 7 n) as [<-|_].
    + rewrite E. reflexivity.
    + apply andb_false_r.
Qed.

Lemma land_0xFF_mod (x : Z) : Z.land x 0xFF = x mod 256.
Proof.
  change 0xFF with (Z.ones 8). rewrite Z.land_ones by lia. reflexivity.
Qed.

Lemma crc_shift_step (crc : Z) : crc_shift crc = Crc8Spec.step crc.
Proof.
  unfold crc_shift, Crc8Spec.step, Crc8Spec.msb_set, Crc8Spec.mask8.
  rewrite land_0x80_msb, land_0xFF_mod.
  rewrite Z.shiftl_mul_pow2 by lia.
  replace (crc * 2 ^ 1) with (2 * crc) by lia.
  destruct (Z.testbit crc 7); reflexivity.
Qed.

Lemma iter_crc_shift_inside (n : nat) (crc : Z) :
  Nat.iter (S n) crc_shift crc = Nat.iter n crc_shift (crc_shift crc).
Proof.
  induction n as [|n IH]; [reflexivity|].
  change (Nat.iter (S (S n)) crc_shift crc)
    with (crc_shift (Nat.iter (S n) crc_shift crc)).
  rewrite IH. reflexivity.
Qed.

Lemma iter_crc_shift_steps (n : nat) (crc : Z) :
  Nat.iter n crc_shift crc = Crc8Spec.steps n crc.
Proof.
  revert crc. induction n as [|n IH]; intros crc; [reflexivity|].
  rewrite iter_crc_shift_inside, IH, crc_shift_step. reflexivity.
Qed.

Lemma fold_crc_byte_checksum_from (data : list Z) (crc : Z) :
  fold_left crc_byte data crc = Crc8Spec.checksum_from crc data.
Proof.
  revert crc. induction data as [|b data IH]; intros crc; [reflexivity|].
  cbn [fold_left Crc8Spec.checksum_from].
  rewrite IH. unfold crc_byte. rewrite iter_crc_shift_steps. reflexivity.
Qed.

Lemma crc_shift_is_byte (crc : Z) : is_byte (crc_shift crc).
Proof.
  unfold crc_shift, is_byte. cbv zeta. rewrite land_0xFF_mod.
  match goal with |- _ <= ?x mod 256 <= _ =>
    pose proof (Z.mod_pos_bound x 256 ltac:(lia)) end.
  lia.
Qed.

Lemma crc_byte_is_byte (crc byte : Z) : is_byte (crc_byte crc byte).
Proof. unfold crc_byte. cbn [Nat.iter nat_rect]. apply crc_shift_is_byte. Qed.

Lemma calculate_crc_is_byte (data : list Z) : is_byte (calculate_crc data).
Proof.
  unfold calculate_crc.
  assert (H : forall crc, is_byte crc -> is_byte (fold_left crc_byte data crc)).
  { induction data as [|b data IH]; intros crc Hc; [exact Hc|].
    cbn [fold_left]. apply IH, crc_byte_is_byte. }
  apply H. unfold is_byte. lia.
Qed.

End CrcFacts.

(** ** The checksum as a remainder *)

Section Remainder.
Import Crc Gf2.

Lemma clmul_double (q g : Z) (bit : bool) :
  0 <= q ->
  clmul (2 * q + Z.b2z bit) g
  = Z.lxor (Z.shiftl (clmul q g) 1) (if bit then g else 0).
Proof.
  intros Hq. destruct q as [|q'|q']; [| |lia].
  - destruct bit; cbn; [reflexivity|reflexivity].
  - destruct bit; cbn [Z.b2z clmul].
    + change (2 * Z.pos q' + 1) with (Z.pos q'~1). reflexivity.
    + change (2 * Z.pos q' + 0) with (Z.pos q'~0). cbn [clmul clmul_pos].
      rewrite Z.lxor_0_r. reflexivity.
Qed.

Lemma crc_shift_table :
  forallb (fun n =>
             let c := Z.of_nat n in
             Z.shiftl c 1
             =? Z.lxor (if Z.testbit c 7 then GENERATOR else 0) (crc_shift c))
          (seq 0 256) = true.
Proof. vm_compute. reflexivity. Qed.

Lemma crc_shift_reduces (c : Z) :
  is_byte c ->
  Z.shiftl c 1 = Z.lxor (if Z.testbit c 7 then GENERATOR else 0) (crc_shift c).
Proof.
  intros Hc. unfold is_byte in Hc.
  pose proof crc_shift_table as H. rewrite forallb_forall in H.
  specialize (H (Z.to_nat c)). cbv zeta in H.
  rewrite Z2Nat.id in H by lia.
  apply Z.eqb_eq, H, in_seq. lia.
Qed.

Lemma crc_shift_divides (q c : Z) :
  0 <= q -> is_byte c ->
  exists q', 0 <= q' /\
    Z.shiftl (Z.lxor (clmul q GENERATOR) c) 1
    = Z.lxor (clmul q' GENERATOR) (crc_shift c).
Proof.
  intros Hq Hc.
  exists (2 * q + Z.b2z (Z.testbit c 7)). split.
  - destruct (Z.testbit c 7); cbn [Z.b2z]; lia.
  - rewrite clmul_double by exact Hq.
    rewrite Z.shiftl_lxor, (crc_shift_reduces c Hc).
    rewrite Z.lxor_assoc. reflexivity.
Qed.

Lemma iter_crc_shift_divides (n : nat) (q c : Z) :
  0 <= q -> is_byte c ->
  exists q', 0 <= q' /\
    Z.shiftl (Z.lxor (clmul q GENERATOR) c) (Z.of_nat n)
    = Z.lxor (clmul q' GENERATOR) (Nat.iter n crc_shift c).
Proof.
  revert q c. induction n as [|n IH]; intros q c Hq Hc.
  - exists q. split; [exact Hq|]. rewrite Z.shiftl_0_r. reflexivity.
  - destruct (crc_shift_divides q c Hq Hc) as (q1 & Hq1 & E1).
    destruct (IH q1 (crc_shift c) Hq1 (crc_shift_is_byte c)) as (q2 & Hq2 & E2).
    exists q2. split; [exact Hq2|].
    rewrite iter_crc_shift_inside, <- E2, <- E1.
    rewrite Z.shiftl_shiftl by lia. f_equal. lia.
Qed.

Lemma lxor_is_byte (a b : Z) : is_byte a -> is_byte b -> is_byte (Z.lxor a b).
Proof.
  unfold is_byte. intros Ha Hb.
  assert (H0 : 0 <= Z.lxor a b) by (apply Z.lxor_nonneg; lia).
  split; [exact H0|].
  destruct (Z.eq_dec (Z.lxor a b) 0) as [->|Hne]; [lia|].
  assert (Z.lxor a b < 2 ^ 8); [|lia].
  apply Z.log2_lt_pow2; [lia|].
  pose proof (Z.log2_lxor a b ltac:(lia) ltac:(lia)) as Hl.
  assert (Z.log2 a < 8).
  { destruct (Z.eq_dec a 0) as [->|]; [cbn; lia|].
    apply Z.log2_lt_pow2; lia. }
  assert (Z.log2 b < 8).
  { destruct (Z.eq_dec b 0) as [->|]; [cbn; lia|].
    apply Z.log2_lt_pow2; lia. }
  lia.
Qed.

Lemma fold_crc_byte_divides (data : list Z) (m q crc : Z) :
  Forall is_byte data -> 0 <= q -> is_byte crc ->
  Z.shiftl m 8 = Z.lxor (clmul q GENERATOR) crc ->
  exists q', 0 <= q' /\
    Z.shiftl (fold_left (fun m b => Z.lxor (Z.shiftl m 8) b) data m) 8
    = Z.lxor (clmul q' GENERATOR) (fold_left crc_byte data crc).
Proof.
  intros Hd. revert m q crc.
  induction Hd as [|b data Hb _ IH]; intros m q crc Hq Hc E; cbn [fold_left].
  - exists q. split; assumption.
  - assert (Hx : is_byte (Z.lxor crc b)).
    { apply lxor_is_byte; assumption. }
    destruct (iter_crc_shift_divides 8 q (Z.lxor crc b) Hq Hx) as (q1 & Hq1 & E1).
    apply (IH _ q1); [exact Hq1 | apply crc_byte_is_byte |].
    unfold crc_byte. rewrite <- E1, E, Z.lxor_assoc. reflexivity.
Qed.

End Remainder.

(** ** The sender *)

Section SenderFacts.
Import Crc Sender.

Lemma clamp_pwm_is_byte (pwm : Z) : is_byte (clamp_pwm pwm).
Proof.
  unfold clamp_pwm, is_byte, MIN_PWM, MAX_PWM.
  destruct (Z.ltb_spec pwm 0); [lia|].
  destruct (Z.gtb_spec pwm 255); lia.
Qed.

Lemma clamp_pwm_cases (pwm : Z) :
  (pwm < 0 -> clamp_pwm pwm = 0) /\
  (pwm > 255 -> clamp_pwm pwm = 255) /\
  (0 <= pwm <= 255 -> clamp_pwm pwm = pwm).
Proof.
  unfold clamp_pwm, MIN_PWM, MAX_PWM.
  destruct (Z.ltb_spec pwm 0); destruct (Z.gtb_spec pwm 255);
    repeat split; intros; lia.
Qed.

Lemma map_clamp_pwm_bytes (data : list Z) :
  Forall is_byte data -> map clamp_pwm data = data.
Proof.
  induction 1 as [|b data Hb _ IH]; [reflexivity|].
  cbn [map]. rewrite IH.
  f_equal. apply clamp_pwm_cases, Hb.
Qed.

Lemma write_each_bytes (out : list Z) (ser : port) :
  Forall is_byte out -> write_each ser out = (Returned, ser ++ out).
Proof.
  intros H. revert ser.
  induction H as [|b out Hb _ IH]; intros ser; cbn [write_each].
  - rewrite app_nil_r. reflexivity.
  - unfold write. rewrite bytes_of_bytes by (constructor; [exact Hb|constructor]).
    rewrite IH, <- app_assoc. reflexivity.
Qed.

Lemma data_to_send_short (data : list Z) :
  (length data <= 255)%nat ->
  let data_length := Z.of_nat (length data) in
  let pwm_values := map clamp_pwm data in
  data_to_send data =
    Some (packet data_length pwm_values
            (calculate_crc (data_length :: pwm_values)) END_BYTE).
Proof.
  intros Hlen data_length pwm_values. unfold data_to_send.
  fold data_length. fold pwm_values.
  rewrite bytes_of_bytes; [reflexivity|].
  constructor.
  - unfold is_byte, data_length. lia.
  - unfold pwm_values. apply Forall_map, Forall_forall.
    intros x _. apply clamp_pwm_is_byte.
Qed.

Lemma packet_bytes (data_length : Z) (pwm_values : list Z) (crc end_byte : Z) :
  is_byte data_length -> Forall is_byte pwm_values ->
  is_byte crc -> is_byte end_byte ->
  Forall is_byte (packet data_length pwm_values crc end_byte).
Proof.
  intros HL Hp Hc He. unfold packet. cbn [app].
  constructor; [unfold is_byte, START_BYTE; lia|].
  constructor; [exact HL|].
  apply Forall_app. split; [exact Hp|].
  constructor; [exact Hc|]. constructor; [exact He|constructor].
Qed.

Lemma send_data_short (ser : port) (data : list Z) :
  (length data <= 255)%nat ->
  let data_length := Z.of_nat (length data) in
  let pwm_values := map clamp_pwm data in
  send_data ser data =
    (Returned,
     ser ++ packet data_length pwm_values
              (calculate_crc (data_length :: pwm_values)) END_BYTE).
Proof.
  intros Hlen data_length pwm_values. unfold send_data.
  rewrite (data_to_send_short data Hlen).
  apply write_each_bytes, packet_bytes.
  - unfold is_byte. lia.
  - apply Forall_map, Forall_forall. intros x _. apply clamp_pwm_is_byte.
  - apply calculate_crc_is_byte.
  - unfold is_byte, END_BYTE. lia.
Qed.

Lemma send_data_long (ser : port) (data : list Z) :
  (255 < length data)%nat -> send_data ser data = (ValueError, ser).
Proof.
  intros Hlen. unfold send_data, data_to_send, bytes.
  cbn [forallb]. unfold is_byteb at 1.
  destruct (Z.leb_spec (Z.of_nat (length data)) 255); [lia|].
  rewrite andb_false_r. reflexivity.
Qed.

End SenderFacts.

(** ** The receiver *)

Section ReceiverFacts.
Import Crc Receiver.

Lemma lossless_app (a b : list Z) :
  lossless (a ++ b) = lossless a ++ lossless b.
Proof. apply map_app. Qed.

Lemma wait_start_skips (noise : list Z) (rest : port) :
  Forall (fun b => b <> START_BYTE) noise ->
  wait_start (lossless noise ++ Some START_BYTE :: rest) = (true, rest).
Proof.
  induction 1 as [|b noise Hb _ IH]; cbn [lossless map app wait_start].
  - rewrite Z.eqb_refl. reflexivity.
  - apply Z.eqb_neq in Hb. rewrite Hb. exact IH.
Qed.

Lemma receive_at_skips (noise : list Z) (rest : port) :
  Forall (fun b => b <> START_BYTE) noise ->
  receive_at (lossless noise ++ Some START_BYTE :: rest) = read_packet rest.
Proof.
  intros H. unfold receive_at. rewrite wait_start_skips by exact H.
  reflexivity.
Qed.

Lemma receive_at_start (rest : port) :
  receive_at (Some START_BYTE :: rest) = read_packet rest.
Proof. exact (receive_at_skips [] rest (Forall_nil _)). Qed.

Lemma read_pwm_all (p : list Z) (pwm_values : list Z) (rest : port) :
  read_pwm (length p) (lossless p ++ rest) pwm_values
  = (Some (pwm_values ++ p), rest).
Proof.
  revert pwm_values. induction p as [|b p IH]; intros pwm_values.
  - cbn. rewrite app_nil_r. reflexivity.
  - cbn [length lossless map app read_pwm read].
    fold (lossless p). rewrite IH, <- app_assoc. reflexivity.
Qed.

Lemma read_pwm_times_out (n : nat) (p : list Z) (pwm_values : list Z)
    (rest : port) :
  (length p < n)%nat -> fst (read rest) = None ->
  read_pwm n (lossless p ++ rest) pwm_values = (None, snd (read rest)).
Proof.
  revert p pwm_values. induction n as [|n IH]; intros p pwm_values Hlen Hto.
  - lia.
  - destruct p as [|b p].
    + cbn [lossless map app read_pwm].
      destruct (read rest) as [[x|] ser'] eqn:E; cbn in Hto |- *;
        [discriminate | reflexivity].
    + cbn [length lossless map app read_pwm read] in *.
      fold (lossless p). apply IH; [lia | exact Hto].
Qed.

Lemma out_of_range_bytes (pwm_values : list Z) :
  Forall is_byte pwm_values -> out_of_range pwm_values = false.
Proof.
  unfold out_of_range.
  induction 1 as [|b l Hb _ IH]; [reflexivity|].
  cbn [existsb]. rewrite IH.
  unfold is_byte, MIN_PWM, MAX_PWM in *.
  destruct (Z.ltb_spec b 0); [lia|].
  destruct (Z.gtb_spec b 255); [lia|]. reflexivity.
Qed.

(** The decoder on a structurally complete packet. *)
Lemma read_packet_complete (L : Z) (p : list Z) (c e : Z) (rest : port) :
  1 <= L <= 200 -> Z.of_nat (length p) = L -> Forall is_byte p ->
  read_packet (Some L :: lossless p ++ Some c :: Some e :: rest) =
    if negb (e =? END_BYTE) then (BadEnd, [], false, rest)
    else if negb (calculate_crc (L :: p) =? c) then (CrcError, p, false, rest)
    else (CrcValid, p, true, rest).
Proof.
  intros HL Hlen Hp. unfold read_packet. cbn [read].
  destruct (Z.eqb_spec L 0); [lia|].
  destruct (Z.gtb_spec L 200); [lia|]. cbn [orb].
  rewrite <- Hlen, Nat2Z.id, read_pwm_all. cbn [app read].
  destruct (negb (e =? END_BYTE)); [reflexivity|].
  rewrite bytes_of_bytes
    by (constructor; [unfold is_byte; lia | exact Hp]).
  rewrite out_of_range_bytes by exact Hp.
  reflexivity.
Qed.

Lemma lossless_packet (L : Z) (p : list Z) (c e : Z) (rest : port) :
  lossless (packet L p c e) ++ rest
  = Some START_BYTE :: Some L :: lossless p ++ Some c :: Some e :: rest.
Proof.
  unfold packet, lossless. cbn [app map].
  rewrite map_app, <- app_assoc. reflexivity.
Qed.

Lemma receive_at_complete (noise : list Z) (L : Z) (p : list Z) (c e : Z)
    (rest : port) :
  Forall (fun b => b <> START_BYTE) noise ->
  1 <= L <= 200 -> Z.of_nat (length p) = L -> Forall is_byte p ->
  receive_at (lossless noise ++ lossless (packet L p c e) ++ rest) =
    if negb (e =? END_BYTE) then (BadEnd, [], false, rest)
    else if negb (calculate_crc (L :: p) =? c) then (CrcError, p, false, rest)
    else (CrcValid, p, true, rest).
Proof.
  intros Hn HL Hlen Hp.
  rewrite lossless_packet, receive_at_skips by exact Hn.
  apply read_packet_complete; assumption.
Qed.

Lemma receive_at_packet (L : Z) (p : list Z) (c e : Z) (rest : port) :
  1 <= L <= 200 -> Z.of_nat (length p) = L -> Forall is_byte p ->
  receive_at (lossless (packet L p c e) ++ rest) =
    if negb (e =? END_BYTE) then (BadEnd, [], false, rest)
    else if negb (calculate_crc (L :: p) =? c) then (CrcError, p, false, rest)
    else (CrcValid, p, true, rest).
Proof. exact (receive_at_complete [] L p c e rest (Forall_nil _)). Qed.

End ReceiverFacts.

Import Crc Sender Receiver Task.

(** ** Encoding and decoding *)

(** What [send_data] puts on a fresh port for a payload of bytes. *)
Lemma send_data_bytes (p : list Z) :
  (length p <= 255)%nat -> Forall is_byte p ->
  let L := Z.of_nat (length p) in
  send_data [] p = (Returned, packet L p (calculate_crc (L :: p)) END_BYTE).
Proof.
  intros Hlen Hp L.
  pose proof (send_data_short [] p Hlen) as Hs. cbv zeta in Hs.
  rewrite (map_clamp_pwm_bytes p Hp) in Hs. exact Hs.
Qed.

(** C1 (round trip).  For every payload of 1 to 200 values, each in
    [0, 255], [send_data] writes a packet to a fresh port without raising,
    and [receive_data] reading exactly those bytes over a lossless link
    leaves by the success exit with acknowledgement [true], the payload
    itself as the recovered array, and every byte consumed. *)
Theorem round_trip (p : list Z) :
  (1 <= length p <= 200)%nat -> Forall is_byte p ->
  exists wire,
    send_data [] p = (Returned, wire) /\
    receive_at (lossless wire) = (CrcValid, p, true, []).
Proof.
  intros Hlen Hp.
  eexists. split; [apply send_data_bytes; [lia | exact Hp]|].
  pose proof (receive_at_complete [] (Z.of_nat (length p)) p
                (calculate_crc (Z.of_nat (length p) :: p)) END_BYTE []
                (Forall_nil _) ltac:(lia) eq_refl Hp) as Hr.
  change (lossless []) with (@nil (option Z)) in Hr.
  rewrite app_nil_l, app_nil_r, !Z.eqb_refl in Hr. exact Hr.
Qed.

Lemma round_trip_witness :
  ((1 <= length [10; 20; 30]%Z <= 200)%nat /\ Forall is_byte [10; 20; 30]) /\
  exists wire,
    send_data [] [10; 20; 30] = (Returned, wire) /\
    receive_at (lossless wire) = (CrcValid, [10; 20; 30], true, []).
Proof.
  assert (Hlen : (1 <= length [10; 20; 30]%Z <= 200)%nat) by (cbn; lia).
  assert (Hp : Forall is_byte [10; 20; 30])
    by (apply forallb_is_byteb; reflexivity).
  split; [split; assumption|].
  exact (round_trip [10; 20; 30] Hlen Hp).
Defined.

(** C2 (checksum).  On every byte sequence [calculate_crc] returns exactly
    the checksum of the specification's algorithm [Crc8Spec.checksum]
    (accumulator 0; each byte XORed in, then eight times: most significant
    bit set gives doubled, XOR 0x07, cut to 8 bits, otherwise doubled, cut
    to 8 bits), and the result is itself a byte. *)
Theorem calculate_crc_is_crc8 (data : list Z) :
  Forall is_byte data ->
  calculate_crc data = Crc8Spec.checksum data /\ is_byte (calculate_crc data).
Proof.
  intros _. split.
  - unfold calculate_crc, Crc8Spec.checksum.
    apply fold_crc_byte_checksum_from.
  - apply calculate_crc_is_byte.
Qed.

Lemma calculate_crc_is_crc8_witness :
  Forall is_byte [0x03; 0x0A; 0x14; 0x1E] /\
  calculate_crc [0x03; 0x0A; 0x14; 0x1E]
    = Crc8Spec.checksum [0x03; 0x0A; 0x14; 0x1E] /\
  is_byte (calculate_crc [0x03; 0x0A; 0x14; 0x1E]).
Proof.
  assert (H : Forall is_byte [0x03; 0x0A; 0x14; 0x1E])
    by (apply forallb_is_byteb; reflexivity).
  split; [exact H|].
  exact (calculate_crc_is_crc8 [0x03; 0x0A; 0x14; 0x1E] H).
Defined.

(** The check value of this CRC-8 (polynomial 0x07, initial value 0, no
    reflection, no final XOR) on the ASCII digits 1 to 9. *)
Example calculate_crc_check_value :
  calculate_crc [49; 50; 51; 52; 53; 54; 55; 56; 57] = 0xF4.
Proof. reflexivity. Qed.

(** The same checksum as polynomial division: with the message read as a
    polynomial over GF(2), most significant bit first, [calculate_crc] is
    the remainder of message times [x^8] modulo [x^8 + x^2 + x + 1]: it has
    degree below 8 and differs from that product by a multiple of the
    generator (no initial value, no reflection, no final XOR enter). *)
Theorem calculate_crc_remainder (data : list Z) :
  Forall is_byte data ->
  exists q, 0 <= q /\
    Z.shiftl (Gf2.message_poly data) 8
    = Z.lxor (Gf2.clmul q Gf2.GENERATOR) (calculate_crc data) /\
    0 <= calculate_crc data < 2 ^ 8.
Proof.
  intros Hd.
  destruct (fold_crc_byte_divides data 0 0 0 Hd ltac:(lia)
              ltac:(unfold is_byte; lia) eq_refl) as (q & Hq & E).
  exists q. split; [exact Hq|]. split; [exact E|].
  pose proof (calculate_crc_is_byte data) as H. unfold is_byte in H. lia.
Qed.

(** Section 8 of the specification: the packet of payload 10, 20, 30. *)
Example send_data_10_20_30 :
  send_data [] [10; 20; 30]
  = (Returned, [0xAA; 0x03; 0x0A; 0x14; 0x1E;
                calculate_crc [0x03; 0x0A; 0x14; 0x1E]; 0x55]).
Proof. reflexivity. Qed.

Example receive_data_10_20_30 :
  receive_data (lossless [0xAA; 0x03; 0x0A; 0x14; 0x1E; 0xE4; 0x55])
  = ([10; 20; 30], true, []).
Proof. reflexivity. Qed.

(** The claim C4 read on the code: after the start byte, the length 3 and
    the single payload byte 10 the reads time out; the array returned is
    empty, not the collected [10]. *)
Lemma partial_payload_not_returned :
  receive_at (lossless [START_BYTE; 3; 10]) = (PayloadTimeout, [], false, []) /\
  receive_at (lossless [START_BYTE; 3; 10]) <> (PayloadTimeout, [10], false, []).
Proof. split; [reflexivity | discriminate]. Qed.

(** C4 (timeout inside the payload), as the code has it.  When the port
    delivers the start byte, a length [L] in 1..200 and then fewer than [L]
    payload bytes before a read times out, [receive_data] leaves by the
    payload-timeout return (line 331) with acknowledgement [false] and an
    empty array: the bytes collected so far are dropped. *)
Theorem payload_timeout_returns_empty (L : Z) (p : list Z)
    (rest : Receiver.port) :
  1 <= L <= 200 -> Z.of_nat (length p) < L -> fst (read rest) = None ->
  receive_at (Some START_BYTE :: Some L :: lossless p ++ rest)
  = (PayloadTimeout, [], false, snd (read rest)).
Proof.
  intros HL Hlen Hto.
  rewrite receive_at_start.
  unfold read_packet. cbn [read].
  destruct (Z.eqb_spec L 0); [lia|].
  destruct (Z.gtb_spec L 200); [lia|]. cbn [orb].
  rewrite read_pwm_times_out by (try exact Hto; lia).
  reflexivity.
Qed.

Lemma payload_timeout_returns_empty_witness :
  (1 <= 3 <= 200 /\ Z.of_nat (length [10; 20]) < 3
   /\ fst (read [None; Some 30]) = None) /\
  receive_at (Some START_BYTE :: Some 3 :: lossless [10; 20] ++ [None; Some 30])
  = (PayloadTimeout, [], false, snd (read [None; Some 30])).
Proof.
  assert (H1 : 1 <= 3 <= 200) by lia.
  assert (H2 : Z.of_nat (length [10; 20]) < 3) by (cbn; lia).
  assert (H3 : fst (read [None; Some 30]) = None) by reflexivity.
  split; [exact (conj H1 (conj H2 H3))|].
  exact (payload_timeout_returns_empty 3 [10; 20] [None; Some 30] H1 H2 H3).
Defined.

(** C5 (length boundary).  After the start byte, a length byte of 0 or of
    more than 200 makes [receive_data] leave by the length check (line 324,
    the specification's Desync) with nothing read after the length byte; a
    length byte of 200 never takes that exit, and when 200 payload bytes, a
    checksum byte and an end byte follow, all 200 are read and the outcome
    is decided by the end byte and the checksum alone. *)
Theorem length_boundary :
  (forall (L : Z) (rest : Receiver.port),
     L = 0 \/ L > 200 ->
     receive_at (Some START_BYTE :: Some L :: rest)
     = (BadLength, [], false, rest)) /\
  (forall rest : Receiver.port,
     exit_of (receive_at (Some START_BYTE :: Some 200 :: rest)) <> BadLength) /\
  (forall (p : list Z) (c e : Z) (rest : Receiver.port),
     length p = 200%nat -> Forall is_byte p ->
     receive_at (lossless (packet 200 p c e) ++ rest) =
       if negb (e =? END_BYTE) then (BadEnd, [], false, rest)
       else if negb (calculate_crc (200 :: p) =? c)
            then (CrcError, p, false, rest)
            else (CrcValid, p, true, rest)).
Proof.
  split; [|split].
  - intros L rest HL. rewrite receive_at_start.
    unfold read_packet. cbn [read].
    destruct (Z.eqb_spec L 0) as [|H0]; [reflexivity|].
    destruct (Z.gtb_spec L 200); [reflexivity | lia].
  - intros rest. rewrite receive_at_start.
    unfold read_packet. cbn [read].
    change ((200 =? 0) || (200 >? 200)) with false. cbv iota.
    destruct (read_pwm (Z.to_nat 200) rest []) as [[pwm_values|] s1];
      [|cbn; discriminate].
    destruct (read s1) as [[received_crc|] s2]; [|cbn; discriminate].
    destruct (read s2) as [[end_byte|] s3]; [|cbn; discriminate].
    destruct (negb (end_byte =? END_BYTE)); [cbn; discriminate|].
    destruct (bytes (200 :: pwm_values)); [|cbn; discriminate].
    destruct (negb (calculate_crc l =? received_crc)); [cbn; discriminate|].
    destruct (out_of_range pwm_values); cbn; discriminate.
  - intros p c e rest Hlen Hp.
    apply (receive_at_complete [] 200 p c e rest (Forall_nil _));
      [lia | lia | exact Hp].
Qed.

Lemma length_boundary_witness :
  ((0 = 0 \/ 0 > 200) /\
   receive_at (Some START_BYTE :: Some 0 :: lossless [7])
   = (BadLength, [], false, lossless [7])) /\
  ((201 = 0 \/ 201 > 200) /\
   receive_at (Some START_BYTE :: Some 201 :: lossless [7])
   = (BadLength, [], false, lossless [7])) /\
  ((length (repeat 7 200) = 200%nat /\ Forall is_byte (repeat 7 200)) /\
   receive_at (lossless (packet 200 (repeat 7 200) 0 END_BYTE) ++ [])
   = (CrcError, repeat 7 200, false, [])).
Proof.
  assert (H0 : 0 = 0 \/ 0 > 200) by (left; reflexivity).
  assert (H201 : 201 = 0 \/ 201 > 200) by (right; lia).
  assert (Hlen : length (repeat 7 200) = 200%nat) by reflexivity.
  assert (Hp : Forall is_byte (repeat 7 200))
    by (apply forallb_is_byteb; reflexivity).
  split; [|split].
  - split; [exact H0|].
    exact (proj1 length_boundary 0 (lossless [7]) H0).
  - split; [exact H201|].
    exact (proj1 length_boundary 201 (lossless [7]) H201).
  - split; [exact (conj Hlen Hp)|].
    exact (proj2 (proj2 length_boundary) (repeat 7 200) 0 END_BYTE [] Hlen Hp).
Defined.

(** Inverting one bit changes the value. *)
Lemma flip_bit_neq (k b : Z) : 0 <= k -> flip_bit k b <> b.
Proof.
  intros Hk H. unfold flip_bit in H.
  assert (H0 : Z.shiftl 1 k = 0).
  { rewrite <- (Z.lxor_0_l (Z.shiftl 1 k)), <- (Z.lxor_nilpotent b).
    rewrite Z.lxor_assoc, H. reflexivity. }
  rewrite Z.shiftl_1_l in H0.
  pose proof (Z.pow_pos_nonneg 2 k ltac:(lia) Hk). lia.
Qed.

Lemma flip_at_app (k : Z) (a : list Z) (b : Z) (r : list Z) :
  flip_at (length a) k (a ++ b :: r) = a ++ flip_bit k b :: r.
Proof.
  induction a as [|x a IH]; [reflexivity|].
  cbn [length app flip_at]. rewrite IH. reflexivity.
Qed.

(** C6 (single-bit corruption of the checksum byte).  For every payload of
    1 to 200 bytes and every bit position 0..7, the packet written by
    [send_data] with that one bit of its checksum byte (index 2 + length)
    inverted is decoded by the CRC-error return (line 352): acknowledgement
    [false], the payload read attached. *)
Theorem checksum_bit_flip_detected (p : list Z) (k : Z) :
  (1 <= length p <= 200)%nat -> Forall is_byte p -> 0 <= k < 8 ->
  exists wire,
    send_data [] p = (Returned, wire) /\
    receive_at (lossless (flip_at (2 + length p) k wire))
    = (CrcError, p, false, []).
Proof.
  intros Hlen Hp Hk.
  eexists. split; [apply send_data_bytes; [lia | exact Hp]|].
  set (L := Z.of_nat (length p)). set (c := calculate_crc (L :: p)).
  assert (Hflip : flip_at (2 + length p) k (packet L p c END_BYTE)
                  = packet L p (flip_bit k c) END_BYTE).
  { unfold packet. cbn [app Nat.add flip_at]. rewrite flip_at_app. reflexivity. }
  rewrite Hflip.
  pose proof (receive_at_complete [] L p (flip_bit k c) END_BYTE []
                (Forall_nil _) ltac:(lia) eq_refl Hp) as Hr.
  change (lossless []) with (@nil (option Z)) in Hr.
  rewrite app_nil_l, app_nil_r, Z.eqb_refl in Hr. cbn [negb] in Hr.
  rewrite Hr. fold c.
  destruct (Z.eqb_spec c (flip_bit k c)) as [E|_]; [|reflexivity].
  exfalso. apply (flip_bit_neq k c); [lia | symmetry; exact E].
Qed.

Lemma checksum_bit_flip_detected_witness :
  ((1 <= length [10; 20; 30]%Z <= 200)%nat /\ Forall is_byte [10; 20; 30]
   /\ 0 <= 7 < 8) /\
  exists wire,
    send_data [] [10; 20; 30] = (Returned, wire) /\
    receive_at (lossless (flip_at (2 + length [10; 20; 30]%Z) 7 wire))
    = (CrcError, [10; 20; 30], false, []).
Proof.
  assert (Hlen : (1 <= length [10; 20; 30]%Z <= 200)%nat) by (cbn; lia).
  assert (Hp : Forall is_byte [10; 20; 30])
    by (apply forallb_is_byteb; reflexivity).
  assert (Hk : 0 <= 7 < 8) by lia.
  split; [exact (conj Hlen (conj Hp Hk))|].
  exact (checksum_bit_flip_detected [10; 20; 30] 7 Hlen Hp Hk).
Defined.

(** C7 (resynchronisation).  Any finite run of delivered bytes none of
    which is the start byte 0xAA, followed by the packet [send_data] writes
    for a payload of 1 to 200 bytes, is decoded by the success exit with
    that payload: the whole prefix is read and discarded. *)
Theorem resynchronization (noise p : list Z) :
  Forall (fun b => b <> START_BYTE) noise ->
  (1 <= length p <= 200)%nat -> Forall is_byte p ->
  exists wire,
    send_data [] p = (Returned, wire) /\
    receive_at (lossless (noise ++ wire)) = (CrcValid, p, true, []).
Proof.
  intros Hn Hlen Hp.
  eexists. split; [apply send_data_bytes; [lia | exact Hp]|].
  rewrite lossless_app.
  pose proof (receive_at_complete noise (Z.of_nat (length p)) p
                (calculate_crc (Z.of_nat (length p) :: p)) END_BYTE []
                Hn ltac:(lia) eq_refl Hp) as Hr.
  rewrite app_nil_r, !Z.eqb_refl in Hr. exact Hr.
Qed.

Lemma resynchronization_witness :
  (Forall (fun b => b <> START_BYTE) [0x55; 0x00; 0xAB] /\
   (1 <= length [10; 20; 30]%Z <= 200)%nat /\ Forall is_byte [10; 20; 30]) /\
  exists wire,
    send_data [] [10; 20; 30] = (Returned, wire) /\
    receive_at (lossless ([0x55; 0x00; 0xAB] ++ wire))
    = (CrcValid, [10; 20; 30], true, []).
Proof.
  assert (Hn : Forall (fun b => b <> START_BYTE) [0x55; 0x00; 0xAB])
    by (repeat constructor; discriminate).
  assert (Hlen : (1 <= length [10; 20; 30]%Z <= 200)%nat) by (cbn; lia).
  assert (Hp : Forall is_byte [10; 20; 30])
    by (apply forallb_is_byteb; reflexivity).
  split; [exact (conj Hn (conj Hlen Hp))|].
  exact (resynchronization [0x55; 0x00; 0xAB] [10; 20; 30] Hn Hlen Hp).
Defined.

(** The claim C8 read on the code: a payload of 256 values, each -5, makes
    [bytes([data_length] + pwm_values)] raise (256 is no byte); nothing is
    written, so no -5 reaches the wire as 0. *)
Lemma long_payload_raises :
  send_data [] (repeat (-5) 256) = (ValueError, []).
Proof. reflexivity. Qed.

(** C8 (clamping), as the code has it.  For every payload of at most 255
    integers [send_data] returns without raising, having written the
    payload's length plus four bytes, and the wire byte at index 2 + i is
    0 when value i is below 0, 255 when it is above 255, and the value
    itself when it is in [0, 255]. *)
Theorem encoder_clamps (data : list Z) :
  (length data <= 255)%nat ->
  exists wire,
    send_data [] data = (Returned, wire) /\
    length wire = (length data + 4)%nat /\
    forall (i : nat) (pwm : Z),
      nth_error data i = Some pwm ->
      exists w,
        nth_error wire (2 + i) = Some w /\
        (pwm < 0 -> w = 0) /\
        (pwm > 255 -> w = 255) /\
        (0 <= pwm <= 255 -> w = pwm).
Proof.
  intros Hlen.
  eexists. split; [exact (send_data_short [] data Hlen)|].
  cbn [app]. unfold packet. cbn [app length]. split.
  - rewrite length_app, length_map. cbn [length]. lia.
  - intros i pwm Hi. exists (clamp_pwm pwm). split.
    + cbn [Nat.add nth_error].
      rewrite nth_error_app1
        by (rewrite length_map; apply nth_error_Some; congruence).
      apply map_nth_error, Hi.
    + apply clamp_pwm_cases.
Qed.

Lemma encoder_clamps_witness :
  (length [-5; 300; 7]%Z <= 255)%nat /\
  exists wire,
    send_data [] [-5; 300; 7] = (Returned, wire) /\
    length wire = (length [-5; 300; 7]%Z + 4)%nat /\
    forall (i : nat) (pwm : Z),
      nth_error [-5; 300; 7] i = Some pwm ->
      exists w,
        nth_error wire (2 + i) = Some w /\
        (pwm < 0 -> w = 0) /\
        (pwm > 255 -> w = 255) /\
        (0 <= pwm <= 255 -> w = pwm).
Proof.
  assert (Hlen : (length [-5; 300; 7]%Z <= 255)%nat) by (cbn; lia).
  split; [exact Hlen|].
  exact (encoder_clamps [-5; 300; 7] Hlen).
Defined.

(** Section 8 of the specification: -5 goes out as 0 and 300 as 255. *)
Example send_data_clamped :
  send_data [] [-5; 300; 7]
  = (Returned, [0xAA; 3; 0; 255; 7; calculate_crc [3; 0; 255; 7]; 0x55]).
Proof. reflexivity. Qed.

(** ** Reads deliver bytes *)

Lemma byte_reads_read (ser : Receiver.port) :
  byte_reads ser ->
  byte_reads (snd (read ser)) /\
  (forall b, fst (read ser) = Some b -> is_byte b).
Proof.
  intros H. destruct H as [|r ser Hr Hs]; cbn.
  - split; [constructor | discriminate].
  - split; assumption.
Qed.

Lemma byte_reads_wait_start (ser : Receiver.port) :
  byte_reads ser -> byte_reads (snd (wait_start ser)).
Proof.
  induction 1 as [|r ser Hr Hs IH]; cbn [wait_start].
  - constructor.
  - destruct r as [b|]; [|exact Hs].
    destruct (b =? START_BYTE); [exact Hs | exact IH].
Qed.

Lemma byte_reads_read_pwm (n : nat) (ser : Receiver.port) (acc : list Z) :
  byte_reads ser -> Forall is_byte acc ->
  forall pwm_values ser',
    read_pwm n ser acc = (Some pwm_values, ser') ->
    Forall is_byte pwm_values /\ byte_reads ser'.
Proof.
  revert ser acc.
  induction n as [|n IH]; intros ser acc Hs Hacc pwm_values ser' E;
    cbn [read_pwm] in E.
  - injection E as <- <-. split; assumption.
  - destruct (byte_reads_read ser Hs) as [Hs' Hb].
    destruct (read ser) as [[b|] s1]; [|discriminate].
    apply (IH s1 (acc ++ [b])); [exact Hs' | | exact E].
    apply Forall_app. split; [exact Hacc|].
    constructor; [apply Hb; reflexivity | constructor].
Qed.

Lemma byte_reads_lossless (wire : list Z) :
  Forall is_byte wire -> byte_reads (lossless wire).
Proof.
  intros H. unfold byte_reads, lossless. apply Forall_map.
  apply (Forall_impl _ (P := is_byte)); [|exact H].
  intros a Ha b [= <-]. exact Ha.
Qed.

(** C9 (the range error cannot happen).  On every port whose reads deliver
    only bytes, [receive_data] never leaves by the range-validation return
    of line 363. *)
Theorem range_error_unreachable (ser : Receiver.port) :
  byte_reads ser -> exit_of (receive_at ser) <> RangeError.
Proof.
  intros Hs. unfold receive_at.
  pose proof (byte_reads_wait_start ser Hs) as H1.
  destruct (wait_start ser) as [[|] s1]; [|cbn; discriminate].
  cbn [snd] in H1. unfold read_packet.
  destruct (byte_reads_read s1 H1) as [H2 _].
  destruct (read s1) as [[data_length|] s2]; [|cbn; discriminate].
  cbn [snd] in H2.
  destruct ((data_length =? 0) || (data_length >? 200)); [cbn; discriminate|].
  pose proof (byte_reads_read_pwm (Z.to_nat data_length) s2 [] H2 (Forall_nil _))
    as H3.
  destruct (read_pwm (Z.to_nat data_length) s2 []) as [[pwm_values|] s3];
    [|cbn; discriminate].
  destruct (H3 pwm_values s3 eq_refl) as [Hp _].
  destruct (read s3) as [[received_crc|] s4]; [|cbn; discriminate].
  destruct (read s4) as [[end_byte|] s5]; [|cbn; discriminate].
  destruct (negb (end_byte =? END_BYTE)); [cbn; discriminate|].
  destruct (bytes (data_length :: pwm_values)) as [crc_data|];
    [|cbn; discriminate].
  destruct (negb (calculate_crc crc_data =? received_crc));
    [cbn; discriminate|].
  rewrite (out_of_range_bytes pwm_values Hp). cbn. discriminate.
Qed.

Lemma range_error_unreachable_witness :
  byte_reads (lossless [0x00; 0xAA; 0x02; 0xFF; 0x00; 0x01; 0x55]) /\
  receive_at (lossless [0x00; 0xAA; 0x02; 0xFF; 0x00; 0x01; 0x55])
  = (CrcValid, [0xFF; 0x00], true, []) /\
  exit_of (receive_at (lossless [0x00; 0xAA; 0x02; 0xFF; 0x00; 0x01; 0x55]))
  <> RangeError.
Proof.
  assert (H : byte_reads (lossless [0x00; 0xAA; 0x02; 0xFF; 0x00; 0x01; 0x55]))
    by (apply byte_reads_lossless, forallb_is_byteb; reflexivity).
  split; [exact H|]. split; [reflexivity|].
  exact (range_error_unreachable _ H).
Defined.

(** C10 (end byte against checksum).  On a structurally complete packet of
    1 to 200 payload bytes: when the byte at the end position is not 0x55,
    [receive_data] returns an empty array (line 343) and the payload read
    is dropped; when the end byte is right and the checksum byte is not the
    CRC of length and payload, it returns the payload read (line 352). *)
Theorem bad_end_drops_payload (L : Z) (p : list Z) (c e : Z)
    (rest : Receiver.port) :
  1 <= L <= 200 -> Z.of_nat (length p) = L -> Forall is_byte p ->
  (e <> END_BYTE ->
   receive_at (lossless (packet L p c e) ++ rest) = (BadEnd, [], false, rest)) /\
  (c <> calculate_crc (L :: p) ->
   receive_at (lossless (packet L p c END_BYTE) ++ rest)
   = (CrcError, p, false, rest)).
Proof.
  intros HL Hlen Hp. split.
  - intros He.
    rewrite (receive_at_packet L p c e rest HL Hlen Hp).
    destruct (Z.eqb_spec e END_BYTE); [contradiction | reflexivity].
  - intros Hc.
    rewrite (receive_at_packet L p c END_BYTE rest HL Hlen Hp).
    rewrite Z.eqb_refl. cbn [negb].
    destruct (Z.eqb_spec (calculate_crc (L :: p)) c); [congruence | reflexivity].
Qed.

Lemma bad_end_drops_payload_witness :
  (1 <= 3 <= 200 /\ Z.of_nat (length [10; 20; 30]) = 3
   /\ Forall is_byte [10; 20; 30]) /\
  ((0x54 <> END_BYTE /\
    receive_at (lossless (packet 3 [10; 20; 30] 0xE4 0x54) ++ [])
    = (BadEnd, [], false, [])) /\
   (0xE5 <> calculate_crc [3; 10; 20; 30] /\
    receive_at (lossless (packet 3 [10; 20; 30] 0xE5 END_BYTE) ++ [])
    = (CrcError, [10; 20; 30], false, []))).
Proof.
  assert (HL : 1 <= 3 <= 200) by lia.
  assert (Hlen : Z.of_nat (length [10; 20; 30]) = 3) by reflexivity.
  assert (Hp : Forall is_byte [10; 20; 30])
    by (apply forallb_is_byteb; reflexivity).
  assert (He : 0x54 <> END_BYTE) by (unfold END_BYTE; lia).
  assert (Hc : 0xE5 <> calculate_crc [3; 10; 20; 30])
    by (vm_compute; discriminate).
  split; [exact (conj HL (conj Hlen Hp))|].
  split.
  - split; [exact He|].
    exact (proj1 (bad_end_drops_payload 3 [10; 20; 30] 0xE4 0x54 [] HL Hlen Hp) He).
  - split; [exact Hc|].
    exact (proj2 (bad_end_drops_payload 3 [10; 20; 30] 0xE5 0x54 [] HL Hlen Hp) Hc).
Defined.

(** ** The receiver task *)

(** The claim C3 read on the code: on a hundred packets that all fail the
    CRC check with a non-zero payload the loop stops after 100 attempts
    with no success at all, so neither 100 successes nor 150 attempts were
    reached: the failed decodes filled [received_data]. *)
Lemma crc_failures_end_loop :
  exists st,
    receive_thread_task [] 0 crc_failures = Some st /\
    no_of_success st = 0 /\ no_of_tries st = 100 /\
    length (received_data st) = 100%nat /\
    ~ (no_of_success st = 100 \/ no_of_tries st = 150).
Proof.
  eexists. split; [vm_compute; reflexivity|].
  cbn. repeat split; try reflexivity. intros [H|H]; discriminate.
Qed.

Lemma while_running_stopped (fuel : nat) (st : state) :
  running st = false -> while_running fuel st = Some st.
Proof. intros H. destruct fuel; cbn [while_running]; rewrite H; reflexivity. Qed.

Lemma while_running_step (fuel : nat) (st : state) :
  running st = true -> while_running (S fuel) st = while_running fuel (attempt st).
Proof. intros H. cbn [while_running]. rewrite H. reflexivity. Qed.

Lemma running_true (st : state) :
  running st = true ->
  (length (received_data st) < 100)%nat /\ no_of_tries st < 150.
Proof.
  unfold running. rewrite andb_true_iff, !Z.ltb_lt. lia.
Qed.

Lemma loop_post_stopped (st : state) :
  running st = false -> loop_post st st 0.
Proof.
  intros R. unfold loop_post. cbn [outcomes filter map length].
  rewrite app_nil_r, !Z.add_0_r.
  repeat split; try assumption; try reflexivity; lia.
Qed.

Lemma attempt_fields (st : state) (arr : list Z) (ack : bool)
    (ser' : Receiver.port) :
  receive_data (ser st) = (arr, ack, ser') ->
  received_data (attempt st)
  = received_data st ++ (if recorded (arr, ack) then [arr] else []) /\
  no_of_success (attempt st) = no_of_success st + Z.b2z ack /\
  no_of_tries (attempt st) = no_of_tries st + 1 /\
  ser (attempt st) = ser'.
Proof.
  intros E. unfold attempt, recorded. rewrite E. cbn [fst snd].
  destruct (np_any arr), ack; cbn;
    rewrite ?app_nil_r, ?Z.add_0_r; repeat split; reflexivity.
Qed.

Lemma loop_post_step (st st' : state) (n : nat) :
  running st = true -> loop_post (attempt st) st' n -> loop_post st st' (S n).
Proof.
  intros R. apply running_true in R as [Hlen Htries].
  destruct (receive_data (ser st)) as [[arr ack] ser'] eqn:E.
  destruct (attempt_fields st arr ack ser' E) as (Ard & Ans & Ant & Aser).
  unfold loop_post. rewrite Ard, Ans, Ant, Aser. cbn [outcomes].
  rewrite E. cbn [filter snd].
  intros (Hrd & Hns & Hnt & Hstop & Hle & Hmax & Hfirst).
  split; [|split; [|split; [|split; [|split; [|split]]]]].
  - rewrite Hrd, <- app_assoc.
    destruct (recorded (arr, ack)); reflexivity.
  - rewrite Hns. destruct ack; cbn [length Z.b2z]; lia.
  - lia.
  - exact Hstop.
  - intros _. apply Hle. rewrite length_app.
    destruct (recorded (arr, ack)); cbn [length]; lia.
  - intros _. apply Hmax. lia.
  - intros [|m] Hm; [cbn [outcomes filter length]; lia|].
    cbn [outcomes]. rewrite E. cbn [filter].
    destruct (Hfirst m ltac:(lia)) as [H1 H2].
    split; [|lia].
    rewrite length_app in H1.
    destruct (recorded (arr, ack)); cbn [length] in H1 |- *; lia.
Qed.

Lemma while_running_post (fuel : nat) (st : state) :
  (Z.to_nat (150 - no_of_tries st) <= fuel)%nat ->
  exists st' n, while_running fuel st = Some st' /\ loop_post st st' n.
Proof.
  revert st. induction fuel as [|fuel IH]; intros st Hfuel;
    destruct (running st) eqn:R.
  - apply running_true in R. lia.
  - exists st, 0%nat.
    split; [apply while_running_stopped, R | apply loop_post_stopped, R].
  - rewrite (while_running_step _ _ R).
    destruct (IH (attempt st)) as (st' & n & Hrun & Hpost).
    { apply running_true in R.
      destruct (receive_data (ser st)) as [[arr ack] ser'] eqn:E.
      destruct (attempt_fields st arr ack ser' E) as (_ & _ & -> & _). lia. }
    exists st', (S n).
    split; [exact Hrun | apply loop_post_step; assumption].
  - exists st, 0%nat.
    split; [apply while_running_stopped, R | apply loop_post_stopped, R].
Qed.

(** C3 (when the receiver loop ends), as the code has it.  Entered from
    [main] with an empty [received_data] and a success count of 0, the loop
    of [receive_thread_task] always ends, after some number [n] of decode
    attempts.  [received_data] then holds the arrays of exactly the attempts
    that passed the test of line 386 (an acknowledged decode, or a failed
    one whose array has a non-zero value), [no_of_success] counts the
    acknowledged ones, and [n] is the first count at which [received_data]
    has 100 entries or 150 attempts were made: before it there were fewer
    than 100 entries and fewer than 150 attempts. *)
Theorem receive_loop_bound (ser : Receiver.port) :
  exists st n,
    receive_thread_task [] 0 ser = Some st /\
    no_of_tries st = Z.of_nat n /\
    received_data st = map fst (filter recorded (outcomes n ser)) /\
    no_of_success st = Z.of_nat (length (filter snd (outcomes n ser))) /\
    (length (received_data st) = 100%nat \/ n = 150%nat) /\
    (forall m, (m < n)%nat ->
       (length (filter recorded (outcomes m ser)) < 100)%nat /\ (m < 150)%nat).
Proof.
  unfold receive_thread_task.
  destruct (while_running_post 150 (mk_state [] 0 0 ser)) as (st & n & Hrun & Hpost);
    [cbn [no_of_tries]; lia|].
  exists st, n. split; [exact Hrun|].
  destruct Hpost as (Hrd & Hns & Hnt & Hstop & Hle & Hmax & Hfirst).
  cbn [received_data no_of_success no_of_tries Task.ser app length] in *.
  repeat split.
  - lia.
  - exact Hrd.
  - lia.
  - specialize (Hle ltac:(lia)). specialize (Hmax ltac:(lia)).
    unfold running in Hstop. apply andb_false_iff in Hstop.
    rewrite !Z.ltb_ge in Hstop. lia.
  - apply (Hfirst m H).
  - destruct (Hfirst m H). lia.
Qed.

Lemma receive_loop_bound_witness :
  exists st n,
    receive_thread_task [] 0 crc_failures = Some st /\
    no_of_tries st = Z.of_nat n /\
    received_data st = map fst (filter recorded (outcomes n crc_failures)) /\
    no_of_success st = Z.of_nat (length (filter snd (outcomes n crc_failures))) /\
    (length (received_data st) = 100%nat \/ n = 150%nat) /\
    (forall m, (m < n)%nat ->
       (length (filter recorded (outcomes m crc_failures)) < 100)%nat
       /\ (m < 150)%nat).
Proof. exact (receive_loop_bound crc_failures). Defined.

(** On a port that never delivers anything the loop makes its 150 attempts
    and records nothing. *)
Example silent_port_150_attempts :
  receive_thread_task [] 0 [] = Some (mk_state [] 0 150 []).
Proof. vm_compute. reflexivity. Qed.

(** * Further properties of the packet link *)

(** ** The checksum under XOR *)

Lemma land_lxor_distr (a b m : Z) :
  Z.land (Z.lxor a b) m = Z.lxor (Z.land a m) (Z.land b m).
Proof.
  apply Z.bits_inj'. intros n _.
  rewrite Z.land_spec, !Z.lxor_spec, !Z.land_spec.
  destruct (Z.testbit a n), (Z.testbit b n), (Z.testbit m n); reflexivity.
Qed.

Lemma crc_shift_lxor (a b : Z) :
  crc_shift (Z.lxor a b) = Z.lxor (crc_shift a) (crc_shift b).
Proof.
  unfold crc_shift. cbv zeta.
  rewrite !land_0x80_msb, Z.lxor_spec, Z.shiftl_lxor.
  destruct (Z.testbit a 7), (Z.testbit b 7); cbn [xorb];
    rewrite <- land_lxor_distr; f_equal.
  - rewrite Z.lxor_assoc, (Z.lxor_comm 7), <- !Z.lxor_assoc.
    rewrite Z.lxor_assoc, Z.lxor_nilpotent, Z.lxor_0_r. reflexivity.
  - rewrite !Z.lxor_assoc. f_equal. apply Z.lxor_comm.
  - rewrite Z.lxor_assoc. reflexivity.
Qed.

Lemma iter_crc_shift_lxor (n : nat) (a b : Z) :
  Nat.iter n crc_shift (Z.lxor a b)
  = Z.lxor (Nat.iter n crc_shift a) (Nat.iter n crc_shift b).
Proof.
  induction n as [|n IH]; [reflexivity|].
  cbn [Nat.iter nat_rect]. fold (Nat.iter n crc_shift (Z.lxor a b)).
  fold (Nat.iter n crc_shift a). fold (Nat.iter n crc_shift b).
  rewrite IH. apply crc_shift_lxor.
Qed.

Lemma crc_byte_lxor (c c' b b' : Z) :
  crc_byte (Z.lxor c c') (Z.lxor b b')
  = Z.lxor (crc_byte c b) (crc_byte c' b').
Proof.
  unfold crc_byte. rewrite <- iter_crc_shift_lxor. f_equal.
  rewrite !Z.lxor_assoc. f_equal.
  rewrite <- !Z.lxor_assoc. f_equal. apply Z.lxor_comm.
Qed.

Lemma fold_crc_byte_lxor (a b : list Z) (c c' : Z) :
  length a = length b ->
  fold_left crc_byte (xor_bytes a b) (Z.lxor c c')
  = Z.lxor (fold_left crc_byte a c) (fold_left crc_byte b c').
Proof.
  revert b c c'. induction a as [|x a IH]; intros [|y b] c c' Hlen;
    try discriminate; [reflexivity|].
  cbn [xor_bytes fold_left]. rewrite crc_byte_lxor. apply IH.
  cbn in Hlen. congruence.
Qed.

Lemma calculate_crc_lxor (a b : list Z) :
  length a = length b ->
  calculate_crc (xor_bytes a b) = Z.lxor (calculate_crc a) (calculate_crc b).
Proof.
  intros Hlen. unfold calculate_crc.
  exact (fold_crc_byte_lxor a b 0 0 Hlen).
Qed.

(** X1.  The CRC-8 is linear over XOR: the checksum of the byte-wise XOR
    of two equally long strings is the XOR of their checksums. *)
Theorem calculate_crc_xor (a b : list Z) :
  length a = length b ->
  calculate_crc (xor_bytes a b) = Z.lxor (calculate_crc a) (calculate_crc b).
Proof.
  intros Hlen. unfold calculate_crc.
  exact (fold_crc_byte_lxor a b 0 0 Hlen).
Qed.

Lemma calculate_crc_xor_witness :
  length [0x12; 0x34; 0x56] = length [0xFF; 0x00; 0xAA] /\
  calculate_crc (xor_bytes [0x12; 0x34; 0x56] [0xFF; 0x00; 0xAA])
  = Z.lxor (calculate_crc [0x12; 0x34; 0x56]) (calculate_crc [0xFF; 0x00; 0xAA]).
Proof.
  assert (H : length [0x12; 0x34; 0x56] = length [0xFF; 0x00; 0xAA])
    by reflexivity.
  split; [exact H|].
  exact (calculate_crc_xor [0x12; 0x34; 0x56] [0xFF; 0x00; 0xAA] H).
Defined.

(** X2.  A string followed by its own checksum byte has checksum 0. *)
Theorem calculate_crc_residue (data : list Z) :
  calculate_crc (data ++ [calculate_crc data]) = 0.
Proof.
  unfold calculate_crc. rewrite fold_left_app. cbn [fold_left].
  unfold crc_byte. rewrite Z.lxor_nilpotent. reflexivity.
Qed.

(** ** Corruption of one payload byte *)

Lemma byte_table (f : Z -> bool) :
  forallb (fun n => f (Z.of_nat n)) (seq 0 256) = true ->
  forall c, is_byte c -> f c = true.
Proof.
  intros H c Hc. unfold is_byte in Hc. rewrite forallb_forall in H.
  specialize (H (Z.to_nat c)). rewrite Z2Nat.id in H by lia.
  apply H, in_seq. lia.
Qed.

Lemma crc_shift_nonzero (c : Z) : is_byte c -> c <> 0 -> crc_shift c <> 0.
Proof.
  intros Hc Hne.
  pose proof (byte_table (fun c => (c =? 0) || negb (crc_shift c =? 0))
                ltac:(vm_compute; reflexivity) c Hc) as H.
  apply orb_true_iff in H. destruct H as [H|H].
  - apply Z.eqb_eq in H. contradiction.
  - apply negb_true_iff, Z.eqb_neq in H. exact H.
Qed.

Lemma iter_crc_shift_nonzero (n : nat) (c : Z) :
  is_byte c -> c <> 0 ->
  is_byte (Nat.iter n crc_shift c) /\ Nat.iter n crc_shift c <> 0.
Proof.
  intros Hc Hne. induction n as [|n [IHb IHn]]; [split; assumption|].
  cbn [Nat.iter nat_rect]. fold (Nat.iter n crc_shift c).
  split; [apply crc_shift_is_byte | apply crc_shift_nonzero; assumption].
Qed.

Lemma fold_crc_byte_zeros_0 (k : nat) : fold_left crc_byte (repeat 0 k) 0 = 0.
Proof. induction k as [|k IH]; [reflexivity|]. cbn [repeat fold_left]. exact IH. Qed.

Lemma fold_crc_byte_zeros_nonzero (m : nat) (c : Z) :
  is_byte c -> c <> 0 -> fold_left crc_byte (repeat 0 m) c <> 0.
Proof.
  revert c. induction m as [|m IH]; intros c Hc Hne; [exact Hne|].
  cbn [repeat fold_left]. unfold crc_byte at 2. rewrite Z.lxor_0_r.
  destruct (iter_crc_shift_nonzero 8 c Hc Hne) as [Hb Hn].
  apply IH; assumption.
Qed.

Lemma calculate_crc_one_byte_nonzero (k m : nat) (d : Z) :
  is_byte d -> d <> 0 ->
  calculate_crc (repeat 0 k ++ d :: repeat 0 m) <> 0.
Proof.
  intros Hd Hne. unfold calculate_crc.
  rewrite fold_left_app, fold_crc_byte_zeros_0. cbn [fold_left].
  unfold crc_byte at 2. rewrite Z.lxor_0_l.
  destruct (iter_crc_shift_nonzero 8 d Hd Hne) as [Hb Hn].
  apply fold_crc_byte_zeros_nonzero; assumption.
Qed.

Lemma xor_at_xor_bytes (i : nat) (d : Z) (w : list Z) :
  (i < length w)%nat ->
  xor_at i d w = xor_bytes w (repeat 0 i ++ d :: repeat 0 (length w - S i)).
Proof.
  revert i. induction w as [|b w IH]; intros i Hi; cbn [length] in Hi; [lia|].
  destruct i as [|i]; cbn [xor_at repeat app xor_bytes length Nat.sub].
  - f_equal. rewrite Nat.sub_0_r. clear. induction w as [|x w IH]; [reflexivity|].
    cbn [length repeat xor_bytes]. rewrite Z.lxor_0_r, <- IH. reflexivity.
  - rewrite Z.lxor_0_r. f_equal. apply IH. lia.
Qed.

Lemma xor_at_length (i : nat) (d : Z) (w : list Z) :
  length (xor_at i d w) = length w.
Proof.
  revert i. induction w as [|b w IH]; intros [|i]; cbn [xor_at length];
    try reflexivity. rewrite IH. reflexivity.
Qed.

Lemma xor_at_bytes (i : nat) (d : Z) (w : list Z) :
  is_byte d -> Forall is_byte w -> Forall is_byte (xor_at i d w).
Proof.
  intros Hd Hw. revert i. induction Hw as [|b w Hb Hw IH]; intros [|i];
    cbn [xor_at]; constructor; try assumption.
  - apply lxor_is_byte; assumption.
  - apply IH.
Qed.

Lemma xor_at_app_l (i : nat) (d : Z) (a r : list Z) :
  (i < length a)%nat -> xor_at i d (a ++ r) = xor_at i d a ++ r.
Proof.
  revert i. induction a as [|b a IH]; intros i Hi; cbn [length] in Hi; [lia|].
  destruct i as [|i]; cbn [app xor_at]; [reflexivity|].
  rewrite IH by lia. reflexivity.
Qed.

Lemma lxor_fixed (a b : Z) : Z.lxor a b = a -> b = 0.
Proof.
  intros H. rewrite <- (Z.lxor_0_l b), <- (Z.lxor_nilpotent a).
  rewrite Z.lxor_assoc, H. reflexivity.
Qed.

Lemma calculate_crc_xor_at (i : nat) (d : Z) (w : list Z) :
  (i < length w)%nat -> is_byte d -> d <> 0 ->
  calculate_crc (xor_at i d w) <> calculate_crc w.
Proof.
  intros Hi Hd Hne E.
  rewrite xor_at_xor_bytes, calculate_crc_lxor in E by
    (try exact Hi; rewrite length_app; cbn [length]; rewrite !repeat_length; lia).
  apply (calculate_crc_one_byte_nonzero i (length w - S i) d Hd Hne).
  apply (lxor_fixed (calculate_crc w)), E.
Qed.

Lemma wire_of_bytes (p : list Z) :
  (length p <= 255)%nat -> Forall is_byte p ->
  wire_of p
  = packet (Z.of_nat (length p)) p
      (calculate_crc (Z.of_nat (length p) :: p)) END_BYTE.
Proof.
  intros Hlen Hp. unfold wire_of.
  rewrite (send_data_bytes p Hlen Hp). reflexivity.
Qed.

(** X3.  Any change confined to one payload byte is detected: when
    payload byte [i] of the packet [send_data] wrote for a payload of 1 to
    200 bytes is XORed with a non-zero byte [d] (any of the 255 error
    patterns, single-bit flips among them), [receive_data] leaves by the
    CRC-error return with the altered payload attached. *)
Theorem payload_byte_corruption_detected (p : list Z) (i : nat) (d : Z) :
  (1 <= length p <= 200)%nat -> Forall is_byte p ->
  (i < length p)%nat -> is_byte d -> d <> 0 ->
  receive_at (lossless (xor_at (2 + i) d (wire_of p)))
  = (CrcError, xor_at i d p, false, []).
Proof.
  intros Hlen Hp Hi Hd Hne.
  rewrite wire_of_bytes by (try exact Hp; lia).
  set (L := Z.of_nat (length p)). set (c := calculate_crc (L :: p)).
  assert (Hx : xor_at (2 + i) d (packet L p c END_BYTE)
               = packet L (xor_at i d p) c END_BYTE).
  { unfold packet. cbn [app Nat.add xor_at]. rewrite xor_at_app_l by exact Hi.
    reflexivity. }
  rewrite Hx, <- (app_nil_r (lossless _)).
  rewrite receive_at_packet;
    [| lia | rewrite xor_at_length; reflexivity | apply xor_at_bytes; assumption].
  rewrite Z.eqb_refl. cbn [negb].
  destruct (Z.eqb_spec (calculate_crc (L :: xor_at i d p)) c) as [E|_];
    [|reflexivity].
  exfalso.
  apply (calculate_crc_xor_at (S i) d (L :: p)); [cbn [length]; lia | | |];
    assumption.
Qed.

Lemma payload_byte_corruption_detected_witness :
  ((1 <= length [10; 20; 30]%Z <= 200)%nat /\ Forall is_byte [10; 20; 30]
   /\ (1 < length [10; 20; 30]%Z)%nat /\ is_byte 0x81 /\ 0x81 <> 0) /\
  receive_at (lossless (xor_at (2 + 1) 0x81 (wire_of [10; 20; 30])))
  = (CrcError, xor_at 1 0x81 [10; 20; 30], false, []).
Proof.
  assert (Hlen : (1 <= length [10; 20; 30]%Z <= 200)%nat) by (cbn; lia).
  assert (Hp : Forall is_byte [10; 20; 30])
    by (apply forallb_is_byteb; reflexivity).
  assert (Hi : (1 < length [10; 20; 30]%Z)%nat) by (cbn; lia).
  assert (Hd : is_byte 0x81) by (unfold is_byte; lia).
  assert (Hne : 0x81 <> 0) by lia.
  split; [exact (conj Hlen (conj Hp (conj Hi (conj Hd Hne))))|].
  exact (payload_byte_corruption_detected [10; 20; 30] 1 0x81 Hlen Hp Hi Hd Hne).
Defined.


(** ** What an acknowledgement guarantees *)

Lemma wait_start_true_inv (ser rest : Receiver.port) :
  wait_start ser = (true, rest) ->
  exists noise,
    ser = lossless noise ++ Some START_BYTE :: rest /\
    Forall (fun b => b <> START_BYTE) noise.
Proof.
  induction ser as [|r ser IH]; cbn [wait_start]; [discriminate|].
  destruct r as [b|]; [|discriminate].
  destruct (Z.eqb_spec b START_BYTE) as [->|Hb].
  - intros [= <-]. exists []. split; [reflexivity | constructor].
  - intros E. destruct (IH E) as (noise & -> & Hn).
    exists (b :: noise). split; [reflexivity | constructor; assumption].
Qed.

Lemma read_Some_inv (ser rest : Receiver.port) (b : Z) :
  read ser = (Some b, rest) -> ser = Some b :: rest.
Proof. destruct ser as [|r ser]; cbn; [discriminate | intros [= -> ->]; reflexivity]. Qed.

Lemma read_pwm_Some_inv (n : nat) (ser rest : Receiver.port)
    (acc pwm_values : list Z) :
  read_pwm n ser acc = (Some pwm_values, rest) ->
  exists p,
    pwm_values = acc ++ p /\ length p = n /\ ser = lossless p ++ rest.
Proof.
  revert ser acc. induction n as [|n IH]; intros ser acc; cbn [read_pwm].
  - intros [= <- <-]. exists []. rewrite app_nil_r. repeat split.
  - destruct (read ser) as [[b|] s1] eqn:E; [|discriminate].
    apply read_Some_inv in E. subst ser.
    intros H. destruct (IH _ _ H) as (p & -> & Hlen & ->).
    exists (b :: p). rewrite <- app_assoc. cbn [length]. repeat split.
    congruence.
Qed.

(** X4.  What [receive_data] returns was read from a whole packet:
    whenever it acknowledges, or returns a non-empty array, the port began
    with bytes other than the start byte, then the start byte, a length
    byte equal to the array's length and between 1 and 200, the array's
    bytes, a checksum byte and the end byte 0x55; the acknowledgement says
    whether the checksum byte is the CRC of length and array, and what
    follows the end byte is left unread. *)
Theorem returned_array_was_read (ser rest : Receiver.port) (x : exit)
    (arr : list Z) (ack : bool) :
  receive_at ser = (x, arr, ack, rest) ->
  ack = true \/ arr <> [] ->
  exists noise received_crc,
    let L := Z.of_nat (length arr) in
    ser = lossless noise ++ lossless (packet L arr received_crc END_BYTE)
            ++ rest /\
    Forall (fun b => b <> START_BYTE) noise /\
    (1 <= length arr <= 200)%nat /\
    Forall is_byte arr /\
    ack = (calculate_crc (L :: arr) =? received_crc) /\
    x = (if ack then CrcValid else CrcError).
Proof.
  intros E Hsome.
  assert (Hne : (x, arr, ack) <> (x, [], false))
    by (intros [= -> ->]; destruct Hsome; [discriminate | contradiction]).
  revert E. unfold receive_at.
  destruct (wait_start ser) as [[|] s1] eqn:Ew;
    [|intros [= <- <- <- _]; contradiction].
  apply wait_start_true_inv in Ew. destruct Ew as (noise & -> & Hn).
  unfold read_packet.
  destruct (read s1) as [[data_length|] s2] eqn:E1;
    [|intros [= <- <- <- _]; contradiction].
  apply read_Some_inv in E1. subst s1.
  destruct (Z.eqb_spec data_length 0) as [|H0];
    [intros [= <- <- <- _]; contradiction|].
  destruct (Z.gtb_spec data_length 200) as [|H200];
    [intros [= <- <- <- _]; contradiction|].
  cbn [orb].
  destruct (read_pwm (Z.to_nat data_length) s2 []) as [[pwm_values|] s3] eqn:E2;
    [|intros [= <- <- <- _]; contradiction].
  apply read_pwm_Some_inv in E2. destruct E2 as (p & -> & Hlen & ->).
  cbn [app].
  destruct (read s3) as [[received_crc|] s4] eqn:E3;
    [|intros [= <- <- <- _]; contradiction].
  apply read_Some_inv in E3. subst s3.
  destruct (read s4) as [[end_byte|] s5] eqn:E4;
    [|intros [= <- <- <- _]; contradiction].
  apply read_Some_inv in E4. subst s4.
  destruct (Z.eqb_spec end_byte END_BYTE) as [->|];
    [|intros [= <- <- <- _]; contradiction].
  cbn [negb].
  destruct (bytes (data_length :: p)) as [crc_data|] eqn:Eb;
    [|intros [= <- <- <- _]; contradiction].
  apply bytes_Some_inv in Eb. destruct Eb as [-> Hb].
  assert (HL : Z.of_nat (length p) = data_length).
  { unfold is_byte in Hb. apply Forall_inv in Hb. lia. }
  rewrite (out_of_range_bytes p (Forall_inv_tail Hb)).
  intros E. exists noise, received_crc. cbv zeta.
  destruct (calculate_crc (data_length :: p) =? received_crc) eqn:Ec;
    cbn [negb] in E; injection E as <- <- <- <-;
    rewrite HL, lossless_packet, Ec;
    (split; [reflexivity|]); (split; [exact Hn|]); (split; [lia|]);
    (split; [exact (Forall_inv_tail Hb)|]); split; reflexivity.
Qed.

Lemma returned_array_was_read_witness :
  (receive_at
     (lossless [0x00; 0xAA; 0x01; 0x07; calculate_crc [0x01; 0x07]; 0x55; 0x09])
   = (CrcValid, [0x07], true, lossless [0x09])
   /\ (true = true \/ [0x07] <> [])) /\
  exists noise received_crc,
    let L := Z.of_nat (length [0x07]) in
    lossless [0x00; 0xAA; 0x01; 0x07; calculate_crc [0x01; 0x07]; 0x55; 0x09]
    = lossless noise ++ lossless (packet L [0x07] received_crc END_BYTE)
        ++ lossless [0x09] /\
    Forall (fun b => b <> START_BYTE) noise /\
    (1 <= length [0x07]%Z <= 200)%nat /\
    Forall is_byte [0x07] /\
    true = (calculate_crc (L :: [0x07]) =? received_crc) /\
    CrcValid = (if true then CrcValid else CrcError).
Proof.
  assert (H : receive_at
                (lossless [0x00; 0xAA; 0x01; 0x07;
                           calculate_crc [0x01; 0x07]; 0x55; 0x09])
              = (CrcValid, [0x07], true, lossless [0x09])) by reflexivity.
  assert (Hs : true = true \/ [0x07] <> []) by (left; reflexivity).
  split; [exact (conj H Hs)|].
  exact (returned_array_was_read _ _ _ _ _ H Hs).
Defined.

(** ** A port without a start byte *)

(** X5.  A port that delivers only bytes other than the start byte and
    then times out makes [receive_data] read and drop them all and return
    an empty array without acknowledgement (line 312). *)
Theorem no_start_byte_times_out (noise : list Z) (rest : Receiver.port) :
  Forall (fun b => b <> START_BYTE) noise -> fst (read rest) = None ->
  receive_at (lossless noise ++ rest) = (StartTimeout, [], false, snd (read rest)).
Proof.
  intros Hn Hto. unfold receive_at.
  assert (Hw : wait_start (lossless noise ++ rest) = (false, snd (read rest))).
  { induction Hn as [|b noise Hb _ IH]; cbn [lossless map app wait_start].
    - destruct rest as [|[r|] rest]; cbn in Hto |- *;
        [reflexivity | discriminate | reflexivity].
    - apply Z.eqb_neq in Hb. rewrite Hb. exact IH. }
  rewrite Hw. reflexivity.
Qed.

Lemma no_start_byte_times_out_witness :
  (Forall (fun b => b <> START_BYTE) [0x55; 0x03; 0xAB]
   /\ fst (read [None; Some START_BYTE]) = None) /\
  receive_at (lossless [0x55; 0x03; 0xAB] ++ [None; Some START_BYTE])
  = (StartTimeout, [], false, snd (read [None; Some START_BYTE])).
Proof.
  assert (Hn : Forall (fun b => b <> START_BYTE) [0x55; 0x03; 0xAB])
    by (repeat constructor; discriminate).
  assert (Hto : fst (read [None; Some START_BYTE]) = None) by reflexivity.
  split; [exact (conj Hn Hto)|].
  exact (no_start_byte_times_out _ _ Hn Hto).
Defined.

(** ** The sender never leaves a partial packet *)

Lemma send_data_wire (ser : Sender.port) (data : list Z) :
  send_data ser data =
    if (length data <=? 255)%nat
    then (Returned, ser ++ wire_of data)
    else (ValueError, ser).
Proof.
  destruct (Nat.leb_spec (length data) 255) as [Hle|Hgt].
  - unfold wire_of. rewrite !send_data_short by exact Hle. reflexivity.
  - apply send_data_long, Hgt.
Qed.

Lemma wire_of_short (data : list Z) :
  (length data <= 255)%nat -> wire_of data = packet_of data.
Proof.
  intros Hle. unfold wire_of. rewrite send_data_short by exact Hle.
  reflexivity.
Qed.

(** X6.  [send_data] never leaves a partial packet on the port.  For a
    payload of at most 255 values it returns having appended exactly one
    packet: the start byte 0xAA, the number of values, the values clamped
    into 0..255, the CRC-8 of count and clamped values, the end byte 0x55.
    For a longer payload it raises having written nothing. *)
Theorem send_data_all_or_nothing (ser : Sender.port) (data : list Z) :
  send_data ser data =
    if (length data <=? 255)%nat
    then
      (Returned,
       ser ++ [START_BYTE; Z.of_nat (length data)]
           ++ map clamp_pwm data
           ++ [calculate_crc (Z.of_nat (length data) :: map clamp_pwm data);
               END_BYTE])
    else (ValueError, ser).
Proof.
  rewrite send_data_wire.
  destruct (Nat.leb_spec (length data) 255) as [Hle|Hgt]; [|reflexivity].
  rewrite (wire_of_short data Hle). reflexivity.
Qed.

(** ** The sender task *)

Section SenderTaskFacts.
Import SenderTask.

Lemma send_thread_task_wires (ser : Sender.port) (all_data : list (list Z)) :
  Forall (fun data => (length data <= 255)%nat) all_data ->
  send_thread_task ser all_data = ser ++ concat (map wire_of all_data).
Proof.
  intros H. revert ser.
  induction H as [|data all_data Hlen _ IH]; intros ser;
    cbn [send_thread_task map concat].
  - rewrite app_nil_r. reflexivity.
  - rewrite send_data_wire.
    apply Nat.leb_le in Hlen. rewrite Hlen.
    rewrite IH, app_assoc. reflexivity.
Qed.

Lemma send_thread_task_wires_until (ser : Sender.port)
    (sent : list (list Z)) (long : list Z) (unsent : list (list Z)) :
  Forall (fun data => (length data <= 255)%nat) sent ->
  (255 < length long)%nat ->
  send_thread_task ser (sent ++ long :: unsent)
  = ser ++ concat (map wire_of sent).
Proof.
  intros H Hlong. revert ser.
  induction H as [|data sent Hlen _ IH]; intros ser;
    cbn [app send_thread_task map concat].
  - rewrite send_data_wire.
    apply Nat.leb_gt in Hlong. rewrite Hlong, app_nil_r. reflexivity.
  - rewrite send_data_wire.
    apply Nat.leb_le in Hlen. rewrite Hlen.
    rewrite IH, app_assoc. reflexivity.
Qed.

Lemma map_wire_of_short (all_data : list (list Z)) :
  Forall (fun data => (length data <= 255)%nat) all_data ->
  map wire_of all_data = map packet_of all_data.
Proof.
  intros H. apply map_ext_in. intros data Hin.
  apply wire_of_short. rewrite Forall_forall in H. apply H, Hin.
Qed.

(** X7.  When every payload has at most 255 values, [send_thread_task]
    leaves on the port, after what was there, the packets of all payloads
    in order, back to back; each packet is the start byte 0xAA, the number
    of values, the clamped values, their CRC-8 and the end byte 0x55
    ([packet_of]). *)
Theorem send_thread_task_writes_all (ser : Sender.port)
    (all_data : list (list Z)) :
  Forall (fun data => (length data <= 255)%nat) all_data ->
  send_thread_task ser all_data = ser ++ concat (map packet_of all_data).
Proof.
  intros H. rewrite (send_thread_task_wires ser all_data H).
  rewrite (map_wire_of_short all_data H). reflexivity.
Qed.

Lemma send_thread_task_writes_all_witness :
  Forall (fun data => (length data <= 255)%nat) [[10; 20]; [-5; 300; 7]] /\
  SenderTask.send_thread_task [0x99] [[10; 20]; [-5; 300; 7]]
  = [0x99] ++ concat (map packet_of [[10; 20]; [-5; 300; 7]]).
Proof.
  assert (H : Forall (fun data => (length data <= 255)%nat)
                [[10; 20]; [-5; 300; 7]])
    by (repeat constructor; cbn; lia).
  split; [exact H|].
  exact (send_thread_task_writes_all [0x99] _ H).
Defined.

(** The two packets of that instance, byte by byte. *)
Example send_thread_task_two_packets :
  SenderTask.send_thread_task [0x99] [[10; 20]; [-5; 300; 7]]
  = [0x99;
     0xAA; 2; 10; 20; calculate_crc [2; 10; 20]; 0x55;
     0xAA; 3; 0; 255; 7; calculate_crc [3; 0; 255; 7]; 0x55].
Proof. reflexivity. Qed.

(** X8.  At the first payload of more than 255 values
    [send_thread_task] ends: the port holds, after what was there, the
    packets ([packet_of]: start byte, count, clamped values, CRC-8, end
    byte) of the payloads before it and nothing else; neither that payload
    nor any payload after it is sent. *)
Theorem send_thread_task_stops (ser : Sender.port)
    (sent : list (list Z)) (long : list Z) (unsent : list (list Z)) :
  Forall (fun data => (length data <= 255)%nat) sent ->
  (255 < length long)%nat ->
  send_thread_task ser (sent ++ long :: unsent)
  = ser ++ concat (map packet_of sent).
Proof.
  intros H Hlong.
  rewrite (send_thread_task_wires_until ser sent long unsent H Hlong).
  rewrite (map_wire_of_short sent H). reflexivity.
Qed.

Lemma send_thread_task_stops_witness :
  (Forall (fun data => (length data <= 255)%nat) [[10; 20]]
   /\ (255 < length (repeat 1 256))%nat) /\
  SenderTask.send_thread_task [] ([[10; 20]] ++ repeat 1 256 :: [[30]])
  = [] ++ concat (map packet_of [[10; 20]]).
Proof.
  assert (H : Forall (fun data => (length data <= 255)%nat) [[10; 20]])
    by (repeat constructor; cbn; lia).
  assert (Hlong : (255 < length (repeat 1 256))%nat)
    by (rewrite repeat_length; lia).
  split; [exact (conj H Hlong)|].
  exact (send_thread_task_stops [] [[10; 20]] (repeat 1 256) [[30]] H Hlong).
Defined.

(** The one packet of that instance, byte by byte. *)
Example send_thread_task_stops_bytes :
  SenderTask.send_thread_task [] ([[10; 20]] ++ repeat 1 256 :: [[30]])
  = [0xAA; 2; 10; 20; calculate_crc [2; 10; 20]; 0x55].
Proof. reflexivity. Qed.

End SenderTaskFacts.

(** ** Sender task and receiver task over a lossless link *)

Lemma receive_data_wire_of (p : list Z) (rest : Receiver.port) :
  sendable p ->
  receive_data (lossless (wire_of p) ++ rest) = (p, true, rest).
Proof.
  intros [Hlen Hp]. unfold receive_data.
  rewrite wire_of_bytes by (try exact Hp; lia).
  rewrite receive_at_packet by (try exact Hp; lia).
  rewrite !Z.eqb_refl. reflexivity.
Qed.

Lemma while_running_packets (ps : list (list Z)) (rd : list (list Z))
    (ns nt : Z) (rest : Receiver.port) (fuel : nat) :
  Forall sendable ps ->
  (length rd + length ps <= 100)%nat ->
  nt + Z.of_nat (length ps) <= 150 ->
  while_running (length ps + fuel)
    (mk_state rd ns nt (lossless (concat (map wire_of ps)) ++ rest))
  = while_running fuel
      (mk_state (rd ++ ps) (ns + Z.of_nat (length ps))
         (nt + Z.of_nat (length ps)) rest).
Proof.
  intros H. revert rd ns nt.
  induction H as [|p ps Hp _ IH]; intros rd ns nt Hrd Hnt.
  - cbn [length map concat lossless app Nat.add Z.of_nat].
    rewrite app_nil_r, !Z.add_0_r. reflexivity.
  - cbn [length] in Hrd, Hnt.
    cbn [length Nat.add map concat]. rewrite while_running_step.
    + unfold attempt. cbn [ser].
      rewrite lossless_app, <- app_assoc, (receive_data_wire_of p _ Hp).
      rewrite orb_true_r.
      cbn [received_data no_of_success no_of_tries ser].
      rewrite IH by (try rewrite length_app; cbn [length]; lia).
      rewrite <- app_assoc. cbn [app].
      f_equal. f_equal; lia.
    + unfold running. cbn [received_data no_of_tries].
      apply andb_true_iff. rewrite !Z.ltb_lt. lia.
Qed.

Lemma while_running_silent (fuel : nat) (rd : list (list Z)) (ns nt : Z) :
  nt <= 150 -> (Z.to_nat (150 - nt) <= fuel)%nat ->
  while_running fuel (mk_state rd ns nt [])
  = Some (mk_state rd ns (if (length rd <? 100)%nat then 150 else nt) []).
Proof.
  destruct (length rd <? 100)%nat eqn:Hrd.
  - apply Nat.ltb_lt in Hrd.
    revert nt. induction fuel as [|fuel IH]; intros nt Hnt Hfuel;
      destruct (Z.eq_dec nt 150) as [->|Hne]; try lia.
    + apply while_running_stopped.
      unfold running. cbn [no_of_tries]. apply andb_false_r.
    + apply while_running_stopped.
      unfold running. cbn [no_of_tries]. apply andb_false_r.
    + rewrite while_running_step.
      * change (attempt (mk_state rd ns nt []))
          with (mk_state rd ns (nt + 1) []).
        apply IH; lia.
      * unfold running. cbn [received_data no_of_tries].
        apply andb_true_iff. rewrite !Z.ltb_lt. lia.
  - apply Nat.ltb_ge in Hrd. intros _ _.
    apply while_running_stopped.
    unfold running. cbn [received_data].
    apply andb_false_iff. left. apply Z.ltb_ge. lia.
Qed.

(** X9.  Sender task and receiver task over a lossless link: for at
    most 100 payloads of 1 to 200 bytes each, the receiver loop run on the
    bytes the sender task wrote recovers the payloads in order, counts one
    success per payload and consumes the whole port; it makes 100 attempts
    when there are 100 payloads and runs on to 150 attempts otherwise. *)
Theorem tasks_over_lossless_link (ps : list (list Z)) :
  (length ps <= 100)%nat -> Forall sendable ps ->
  receive_thread_task [] 0
    (lossless (SenderTask.send_thread_task [] ps))
  = Some (mk_state ps (Z.of_nat (length ps))
            (if (length ps <? 100)%nat then 150 else 100) []).
Proof.
  intros Hn Hps.
  rewrite send_thread_task_wires.
  2:{ apply (Forall_impl _ (P := sendable)); [|exact Hps].
      intros p [Hlen _]. lia. }
  cbn [app]. unfold receive_thread_task.
  replace 150%nat with (length ps + (150 - length ps))%nat by lia.
  rewrite <- (app_nil_r (lossless _)).
  rewrite while_running_packets by (try exact Hps; cbn [length]; lia).
  cbn [app]. rewrite !Z.add_0_l.
  rewrite while_running_silent by lia.
  destruct (Nat.ltb_spec (length ps) 100); [reflexivity|].
  repeat f_equal. lia.
Qed.

Lemma tasks_over_lossless_link_witness :
  ((length [[10; 20; 30]; [0]] <= 100)%nat
   /\ Forall sendable [[10; 20; 30]; [0]]) /\
  receive_thread_task [] 0
    (lossless (SenderTask.send_thread_task [] [[10; 20; 30]; [0]]))
  = Some (mk_state [[10; 20; 30]; [0]]
            (Z.of_nat (length [[10; 20; 30]; [0]]))
            (if (length [[10; 20; 30]; [0]] <? 100)%nat then 150 else 100) []).
Proof.
  assert (Hn : (length [[10; 20; 30]; [0]] <= 100)%nat) by (cbn; lia).
  assert (Hps : Forall sendable [[10; 20; 30]; [0]]).
  { repeat constructor; cbn; try lia; unfold is_byte; lia. }
  split; [exact (conj Hn Hps)|].
  exact (tasks_over_lossless_link [[10; 20; 30]; [0]] Hn Hps).
Defined.


(** * The counters of the receiver task *)

Lemma outcomes_length (n : nat) (ser : Receiver.port) :
  length (outcomes n ser) = n.
Proof.
  revert ser. induction n as [|n IH]; intros ser; [reflexivity|].
  cbn [outcomes]. destruct (receive_data ser) as [[arr ack] ser'].
  cbn [length]. rewrite IH. reflexivity.
Qed.

Lemma acknowledged_recorded (os : list (list Z * bool)) :
  (length (filter snd os) <= length (filter recorded os) <= length os)%nat.
Proof.
  induction os as [|[arr ack] os IH]; [cbn; lia|].
  cbn [filter snd]. change (recorded (arr, ack)) with (np_any arr || ack).
  destruct ack, (np_any arr); cbn [orb length]; lia.
Qed.

(** X10.  When the receiver loop ends, the successes are at most the
    recorded arrays, which are at most 100 and at most the attempts, which
    are at most 150. *)
Theorem receive_loop_counters (ser : Receiver.port) :
  exists st,
    receive_thread_task [] 0 ser = Some st /\
    0 <= no_of_success st <= Z.of_nat (length (received_data st)) /\
    Z.of_nat (length (received_data st)) <= no_of_tries st <= 150 /\
    (length (received_data st) <= 100)%nat.
Proof.
  unfold receive_thread_task.
  destruct (while_running_post 150 (mk_state [] 0 0 ser))
    as (st & n & Hrun & Hpost); [cbn [no_of_tries]; lia|].
  exists st. split; [exact Hrun|].
  destruct Hpost as (Hrd & Hns & Hnt & _ & Hle & Hmax & _).
  cbn [received_data no_of_success no_of_tries Task.ser app length] in *.
  pose proof (acknowledged_recorded (outcomes n ser)) as Hc.
  rewrite outcomes_length in Hc.
  specialize (Hle ltac:(lia)). specialize (Hmax ltac:(lia)).
  rewrite Hrd, length_map in *. lia.
Qed.

(** X11.  One pass of the receiver loop over a well-framed packet whose
    checksum byte is wrong counts an attempt and no success, and appends
    the payload to [received_data] only when some value of it is not zero:
    a corrupted packet of zeros leaves no trace. *)
Theorem crc_failure_recorded_if_nonzero (rd : list (list Z)) (ns nt : Z)
    (L : Z) (p : list Z) (c : Z) (rest : Receiver.port) :
  1 <= L <= 200 -> Z.of_nat (length p) = L -> Forall is_byte p ->
  c <> calculate_crc (L :: p) ->
  attempt (mk_state rd ns nt (lossless (packet L p c END_BYTE) ++ rest))
  = mk_state (if np_any p then rd ++ [p] else rd) ns (nt + 1) rest.
Proof.
  intros HL Hlen Hp Hc. unfold attempt, receive_data. cbn [ser].
  rewrite (receive_at_packet L p c END_BYTE rest HL Hlen Hp).
  rewrite Z.eqb_refl. cbn [negb].
  destruct (Z.eqb_spec (calculate_crc (L :: p)) c) as [E|_]; [congruence|].
  cbn [negb]. rewrite orb_false_r.
  destruct (np_any p); reflexivity.
Qed.

Lemma crc_failure_recorded_if_nonzero_witness :
  (1 <= 2 <= 200 /\ Z.of_nat (length [0; 0]) = 2 /\ Forall is_byte [0; 0]
   /\ 0xFF <> calculate_crc (2 :: [0; 0])) /\
  attempt (mk_state [] 0 0 (lossless (packet 2 [0; 0] 0xFF END_BYTE) ++ []))
  = mk_state (if np_any [0; 0] then [] ++ [[0; 0]] else []) 0 (0 + 1) [].
Proof.
  assert (HL : 1 <= 2 <= 200) by lia.
  assert (Hlen : Z.of_nat (length [0; 0]) = 2) by reflexivity.
  assert (Hp : Forall is_byte [0; 0]) by (apply forallb_is_byteb; reflexivity).
  assert (Hc : 0xFF <> calculate_crc (2 :: [0; 0])) by (vm_compute; discriminate).
  split; [exact (conj HL (conj Hlen (conj Hp Hc)))|].
  exact (crc_failure_recorded_if_nonzero [] 0 0 2 [0; 0] 0xFF [] HL Hlen Hp Hc).
Defined.


(** * The CAN checksum *)

Section CanDivision.
Import Can.

Lemma xor_item_app (a : list Z) (x : Z) (l : list Z) (v : Z) :
  xor_item (a ++ x :: l) (length a) v = Some (a ++ Z.lxor x v :: l).
Proof.
  induction a as [|y a IH]; cbn [app length xor_item]; [reflexivity|].
  rewrite IH. reflexivity.
Qed.

Lemma xor_poly_app (pbits a a' cur : list Z) :
  (length pbits <= length cur)%nat ->
  xor_poly (a ++ a' ++ cur) (length a) (length a') pbits
  = Some (a ++ a' ++ xor_prefix pbits cur).
Proof.
  revert a' cur. induction pbits as [|pb pbits IH]; intros a' cur Hlen.
  - reflexivity.
  - destruct cur as [|x cur]; cbn [length] in Hlen; [lia|].
    cbn [xor_poly xor_prefix].
    rewrite app_assoc, <- length_app, xor_item_app.
    replace ((a ++ a') ++ Z.lxor x pb :: cur)
      with (a ++ (a' ++ [Z.lxor x pb]) ++ cur)
      by (rewrite <- !app_assoc; reflexivity).
    replace (S (length a')) with (length (a' ++ [Z.lxor x pb]))
      by (rewrite length_app; cbn [length]; lia).
    rewrite IH by lia. rewrite <- !app_assoc. reflexivity.
Qed.

Lemma xor_prefix_length (pbits cur : list Z) :
  length (xor_prefix pbits cur) = length cur.
Proof.
  revert cur. induction pbits as [|pb pbits IH]; intros [|x cur];
    cbn [xor_prefix length]; try reflexivity.
  rewrite IH. reflexivity.
Qed.

Lemma poly_bits_length : length poly_bits = 16%nat.
Proof. reflexivity. Qed.

Lemma remainder_bits_length (n : nat) (cur : list Z) :
  (n <= length cur)%nat -> length (remainder_bits n cur) = (length cur - n)%nat.
Proof.
  revert cur. induction n as [|n IH]; intros cur Hlen; cbn [remainder_bits].
  - lia.
  - destruct cur as [|bit cur']; cbn [length] in *; [lia|].
    destruct (bit =? 1).
    + rewrite IH.
      * cbn [xor_prefix poly_bits]. 
        change (length (tl (xor_prefix poly_bits (bit :: cur'))))
          with (length (xor_prefix (tl poly_bits) cur')).
        rewrite xor_prefix_length. lia.
      * change (length (tl (xor_prefix poly_bits (bit :: cur'))))
          with (length (xor_prefix (tl poly_bits) cur')).
        rewrite xor_prefix_length. lia.
    + rewrite IH; lia.
Qed.

Lemma divide_app (n : nat) (a cur : list Z) :
  (n + 15 <= length cur)%nat ->
  exists a',
    length a' = n /\
    divide (a ++ cur) (length a) n = Some (a ++ a' ++ remainder_bits n cur).
Proof.
  revert a cur. induction n as [|n IH]; intros a cur Hlen.
  - exists []. split; reflexivity.
  - destruct cur as [|bit cur']; cbn [length] in Hlen; [lia|].
    cbn [divide remainder_bits].
    rewrite nth_error_app2, Nat.sub_diag by lia. cbn [nth_error].
    destruct (bit =? 1).
    + pose proof (xor_poly_app poly_bits a [] (bit :: cur')) as Hx.
      cbn [app length] in Hx. rewrite Hx by (rewrite poly_bits_length; lia).
      clear Hx.
      change (xor_prefix poly_bits (bit :: cur'))
        with (Z.lxor bit 0 :: xor_prefix (tl poly_bits) cur').
      cbn [tl].
      destruct (IH (a ++ [Z.lxor bit 0]) (xor_prefix (tl poly_bits) cur'))
        as (a' & Ha' & E).
      { rewrite xor_prefix_length. lia. }
      exists (Z.lxor bit 0 :: a'). split; [cbn [length]; lia|].
      rewrite length_app, Nat.add_comm in E. cbn [length Nat.add] in E.
      rewrite <- app_assoc in E. cbn [app] in E.
      rewrite E, <- app_assoc. reflexivity.
    + destruct (IH (a ++ [bit]) cur') as (a' & Ha' & E); [lia|].
      exists (bit :: a'). split; [cbn [length]; lia|].
      rewrite length_app, Nat.add_comm in E. cbn [length Nat.add] in E.
      rewrite <- app_assoc in E. cbn [app] in E.
      rewrite E, <- app_assoc. reflexivity.
Qed.

Lemma collect_app (n : nat) (a r : list Z) (crc_value : Z) :
  (n <= length r)%nat ->
  collect (a ++ r) (length a) n crc_value
  = Some (fold_left (fun v b => Z.lor (Z.shiftl v 1) b) (firstn n r) crc_value).
Proof.
  revert a r crc_value. induction n as [|n IH]; intros a r crc_value Hlen.
  - reflexivity.
  - destruct r as [|bit r]; cbn [length] in Hlen; [lia|].
    cbn [collect firstn fold_left].
    rewrite nth_error_app2, Nat.sub_diag by lia. cbn [nth_error].
    specialize (IH (a ++ [bit]) r (Z.lor (Z.shiftl crc_value 1) bit)
                  ltac:(lia)).
    rewrite length_app, Nat.add_comm in IH. cbn [length Nat.add] in IH.
    rewrite <- app_assoc in IH. exact IH.
Qed.

(** The index-by-index loops of [calculate_crc] never leave the list. *)
Lemma calculate_crc_remainder_bits (data_bits : list Z) :
  calculate_crc data_bits
  = Some (bits_value
            (remainder_bits (length data_bits)
               (data_bits ++ repeat 0 CRC_WIDTH))).
Proof.
  unfold calculate_crc. cbv zeta.
  destruct (divide_app (length data_bits) [] (data_bits ++ repeat 0 CRC_WIDTH))
    as (a' & Ha' & E).
  { rewrite length_app, repeat_length. unfold CRC_WIDTH. lia. }
  cbn [app length] in E. rewrite E, <- Ha'.
  rewrite collect_app.
  - rewrite firstn_all2; [reflexivity|].
    rewrite remainder_bits_length; rewrite length_app, repeat_length;
      unfold CRC_WIDTH; lia.
  - rewrite remainder_bits_length; rewrite length_app, repeat_length;
      unfold CRC_WIDTH; lia.
Qed.

End CanDivision.


Section CanRemainder.
Import Can Gf2.

Ltac lxor_bits :=
  apply Z.bits_inj'; intros ? _; rewrite ?Z.lxor_spec;
  repeat match goal with |- context [Z.testbit ?a ?n] =>
    destruct (Z.testbit a n) end; reflexivity.

Lemma lxor_swap_inner (a b c v : Z) :
  Z.lxor a (Z.lxor b v) = Z.lxor (Z.lxor a (Z.lxor b c)) (Z.lxor v c).
Proof. lxor_bits. Qed.

Lemma lor_shiftl_bit (v b : Z) :
  is_bit b -> Z.lor (Z.shiftl v 1) b = Z.lxor (Z.shiftl v 1) b.
Proof.
  intros Hb. symmetry. apply Z.lxor_lor.
  destruct Hb as [->| ->]; [apply Z.land_0_r|].
  apply Z.bits_inj'. intros n Hn.
  rewrite Z.land_spec, Z.bits_0.
  destruct (Z.eq_dec n 0) as [->|Hne].
  - rewrite Z.shiftl_spec_low by lia. reflexivity.
  - change 1 with (2 ^ 0). rewrite Z.pow2_bits_false by lia.
    apply andb_false_r.
Qed.

Lemma fold_bits_poly (bits : list Z) (v : Z) :
  Forall is_bit bits ->
  fold_left (fun v b => Z.lor (Z.shiftl v 1) b) bits v
  = Z.lxor (Z.shiftl v (Z.of_nat (length bits))) (poly_of_bits bits).
Proof.
  intros H. revert v. induction H as [|b bits Hb _ IH]; intros v.
  - cbn [fold_left length poly_of_bits Z.of_nat].
    rewrite Z.shiftl_0_r, Z.lxor_0_r. reflexivity.
  - cbn [fold_left length poly_of_bits].
    rewrite IH, (lor_shiftl_bit v b Hb), Z.shiftl_lxor.
    rewrite Z.shiftl_shiftl by lia.
    replace (1 + Z.of_nat (length bits)) with (Z.of_nat (S (length bits)))
      by lia.
    apply Z.lxor_assoc.
Qed.

Lemma bits_value_poly (bits : list Z) :
  Forall is_bit bits -> bits_value bits = poly_of_bits bits.
Proof.
  intros H. unfold bits_value. rewrite (fold_bits_poly bits 0 H).
  rewrite Z.shiftl_0_l. apply Z.lxor_0_l.
Qed.

Lemma poly_of_bits_xor_prefix (pbits cur : list Z) :
  (length pbits <= length cur)%nat ->
  poly_of_bits (xor_prefix pbits cur)
  = Z.lxor (poly_of_bits cur)
      (Z.shiftl (poly_of_bits pbits) (Z.of_nat (length cur - length pbits))).
Proof.
  revert cur. induction pbits as [|pb pbits IH]; intros cur Hlen.
  - cbn [xor_prefix poly_of_bits]. rewrite Z.shiftl_0_l, Z.lxor_0_r.
    reflexivity.
  - destruct cur as [|x cur]; cbn [length] in Hlen; [lia|].
    cbn [xor_prefix poly_of_bits length Nat.sub].
    rewrite xor_prefix_length, IH by lia.
    rewrite !Z.shiftl_lxor, Z.shiftl_shiftl by lia.
    replace (Z.of_nat (length pbits) + Z.of_nat (length cur - length pbits))
      with (Z.of_nat (length cur)) by lia.
    lxor_bits.
Qed.

Lemma poly_of_bits_app_zeros (bits : list Z) (k : nat) :
  poly_of_bits (bits ++ repeat 0 k) = Z.shiftl (poly_of_bits bits) (Z.of_nat k).
Proof.
  induction bits as [|b bits IH].
  - cbn [app poly_of_bits]. rewrite Z.shiftl_0_l.
    induction k as [|k IHk]; [reflexivity|].
    cbn [repeat poly_of_bits]. rewrite Z.shiftl_0_l, IHk. reflexivity.
  - cbn [app poly_of_bits]. rewrite IH, Z.shiftl_lxor.
    rewrite Z.shiftl_shiftl by lia.
    rewrite length_app, repeat_length. f_equal. f_equal. lia.
Qed.

Lemma lxor_below (n a b : Z) :
  0 <= n -> 0 <= a < 2 ^ n -> 0 <= b < 2 ^ n -> 0 <= Z.lxor a b < 2 ^ n.
Proof.
  intros Hn Ha Hb.
  assert (H0 : 0 <= Z.lxor a b) by (apply Z.lxor_nonneg; lia).
  split; [exact H0|].
  destruct (Z.eq_dec (Z.lxor a b) 0) as [->|Hne]; [lia|].
  assert (Hpos : 0 < n).
  { destruct (Z.eq_dec n 0) as [->|]; [|lia].
    exfalso. apply Hne.
    assert (a = 0) by (change (2 ^ 0) with 1 in Ha; lia).
    assert (b = 0) by (change (2 ^ 0) with 1 in Hb; lia).
    subst. reflexivity. }
  apply Z.log2_lt_pow2; [lia|].
  pose proof (Z.log2_lxor a b ltac:(lia) ltac:(lia)) as Hl.
  assert (Z.log2 a < n).
  { destruct (Z.eq_dec a 0) as [->|]; [cbn; lia|].
    apply Z.log2_lt_pow2; lia. }
  assert (Z.log2 b < n).
  { destruct (Z.eq_dec b 0) as [->|]; [cbn; lia|].
    apply Z.log2_lt_pow2; lia. }
  lia.
Qed.

Lemma poly_of_bits_below (bits : list Z) :
  Forall is_bit bits -> 0 <= poly_of_bits bits < 2 ^ Z.of_nat (length bits).
Proof.
  induction 1 as [|b bits Hb _ IH]; [cbn; lia|].
  cbn [poly_of_bits length].
  assert (Hpow : 2 ^ Z.of_nat (S (length bits))
                 = 2 * 2 ^ Z.of_nat (length bits)).
  { rewrite Nat2Z.inj_succ, Z.pow_succ_r by lia. reflexivity. }
  apply lxor_below; [lia | | lia].
  destruct Hb as [->| ->].
  - rewrite Z.shiftl_0_l. lia.
  - rewrite Z.shiftl_1_l. lia.
Qed.

Lemma is_bit_lxor (a b : Z) : is_bit a -> is_bit b -> is_bit (Z.lxor a b).
Proof. intros [->| ->] [->| ->]; cbn; unfold is_bit; lia. Qed.

Lemma poly_bits_are_bits : Forall is_bit poly_bits.
Proof. repeat constructor; cbn; unfold is_bit; lia. Qed.

Lemma xor_prefix_bits (pbits cur : list Z) :
  Forall is_bit pbits -> Forall is_bit cur -> Forall is_bit (xor_prefix pbits cur).
Proof.
  intros Hp. revert cur. induction Hp as [|pb pbits Hpb _ IH]; intros cur Hc.
  - exact Hc.
  - destruct Hc as [|x cur Hx Hc]; cbn [xor_prefix]; constructor.
    + apply is_bit_lxor; assumption.
    + apply IH, Hc.
Qed.

Lemma remainder_bits_are_bits (n : nat) (cur : list Z) :
  Forall is_bit cur -> Forall is_bit (remainder_bits n cur).
Proof.
  revert cur. induction n as [|n IH]; intros cur Hc; [exact Hc|].
  destruct Hc as [|bit cur' Hb Hc]; cbn [remainder_bits]; [constructor|].
  apply IH. destruct (bit =? 1); [|exact Hc].
  assert (H : Forall is_bit (xor_prefix poly_bits (bit :: cur')))
    by (apply xor_prefix_bits; [apply poly_bits_are_bits | constructor; assumption]).
  destruct (xor_prefix poly_bits (bit :: cur')); [constructor|].
  apply (Forall_inv_tail H).
Qed.

Lemma remainder_bits_divides (n : nat) (cur : list Z) (q : Z) :
  length cur = (n + 15)%nat -> Forall is_bit cur -> 0 <= q ->
  exists q', 0 <= q' /\
    Z.lxor (Z.shiftl (clmul q CAN_GENERATOR) (Z.of_nat n)) (poly_of_bits cur)
    = Z.lxor (clmul q' CAN_GENERATOR) (poly_of_bits (remainder_bits n cur)).
Proof.
  revert cur q. induction n as [|n IH]; intros cur q Hlen Hc Hq.
  - exists q. split; [exact Hq|]. cbn [remainder_bits Z.of_nat].
    rewrite Z.shiftl_0_r. reflexivity.
  - destruct Hc as [|bit cur' Hb Hc]; cbn [length] in Hlen; [lia|].
    cbn [remainder_bits].
    assert (Hlen' : length cur' = (n + 15)%nat) by lia.
    destruct (Z.eqb_spec bit 1) as [->|Hne].
    + change (tl (xor_prefix poly_bits (1 :: cur')))
        with (xor_prefix (tl poly_bits) cur').
      destruct (IH (xor_prefix (tl poly_bits) cur') (2 * q + Z.b2z true))
        as (q' & Hq' & E).
      * rewrite xor_prefix_length. exact Hlen'.
      * apply xor_prefix_bits; [|exact Hc].
        apply (Forall_inv_tail poly_bits_are_bits).
      * cbn [Z.b2z]. lia.
      * exists q'. split; [exact Hq'|]. rewrite <- E.
        rewrite clmul_double by exact Hq.
        rewrite poly_of_bits_xor_prefix by (cbn [length tl poly_bits]; cbn; lia).
        cbn [poly_of_bits]. rewrite Hlen'.
        change (poly_of_bits (tl poly_bits)) with 0x4599.
        change (length (tl poly_bits)) with 15%nat.
        replace (n + 15 - 15)%nat with n by lia.
        replace (Z.of_nat (S n)) with (1 + Z.of_nat n) by lia.
        rewrite <- Z.shiftl_shiftl by lia.
        rewrite Z.shiftl_lxor.
        replace (Z.shiftl CAN_GENERATOR (Z.of_nat n))
          with (Z.lxor (Z.shiftl 1 (Z.of_nat (n + 15)))
                  (Z.shiftl 0x4599 (Z.of_nat n))).
        -- apply lxor_swap_inner.
        -- change CAN_GENERATOR with (Z.lxor (Z.shiftl 1 15) 0x4599).
           rewrite Z.shiftl_lxor, Z.shiftl_shiftl by lia.
           f_equal. f_equal. lia.
    + assert (bit = 0) by (destruct Hb; [assumption | contradiction]).
      subst bit.
      destruct (IH cur' (2 * q + Z.b2z false)) as (q' & Hq' & E);
        [exact Hlen' | exact Hc | cbn [Z.b2z]; lia |].
      exists q'. split; [exact Hq'|]. rewrite <- E.
      rewrite clmul_double by exact Hq.
      cbn [poly_of_bits]. rewrite Z.shiftl_0_l, Z.lxor_0_l, Z.lxor_0_r.
      replace (Z.of_nat (S n)) with (1 + Z.of_nat n) by lia.
      rewrite <- Z.shiftl_shiftl by lia. reflexivity.
Qed.

End CanRemainder.

(** X12.  The CAN [calculate_crc] never indexes outside its list: for
    every list of integers it returns a value. *)
Theorem can_crc_never_raises (data_bits : list Z) :
  exists crc_value, Can.calculate_crc data_bits = Some crc_value.
Proof. eexists. apply calculate_crc_remainder_bits. Qed.

(** X13.  On every bit string the CAN [calculate_crc] returns the
    remainder of the string, read as a polynomial over GF(2) and multiplied
    by [x^15], modulo the CAN generator 0xC599: the result is below 2^15
    and differs from that product by a multiple of the generator.  The
    constant 0x4599 of line 5 lacks the leading term, and the division
    leaves the leading bit uncleared, to the same effect. *)
Theorem can_crc_remainder (data_bits : list Z) :
  Forall is_bit data_bits ->
  exists q crc_value,
    0 <= q /\
    Can.calculate_crc data_bits = Some crc_value /\
    0 <= crc_value < 2 ^ 15 /\
    Z.shiftl (bits_value data_bits) 15
    = Z.lxor (Gf2.clmul q CAN_GENERATOR) crc_value.
Proof.
  intros Hd.
  set (cur := data_bits ++ repeat 0 Can.CRC_WIDTH).
  assert (Hcur : Forall is_bit cur).
  { apply Forall_app. split; [exact Hd|].
    apply Forall_forall. intros x Hx. apply repeat_spec in Hx. left. exact Hx. }
  assert (Hlen : length cur = (length data_bits + 15)%nat).
  { unfold cur. rewrite length_app, repeat_length. reflexivity. }
  pose proof (remainder_bits_are_bits (length data_bits) cur Hcur) as Hr.
  destruct (remainder_bits_divides (length data_bits) cur 0 Hlen Hcur ltac:(lia))
    as (q & Hq & E).
  exists q, (bits_value (remainder_bits (length data_bits) cur)).
  split; [exact Hq|]. split; [apply calculate_crc_remainder_bits|].
  rewrite (bits_value_poly _ Hr), (bits_value_poly _ Hd). split.
  - pose proof (poly_of_bits_below _ Hr) as Hb.
    rewrite remainder_bits_length in Hb by lia.
    replace (length cur - length data_bits)%nat with 15%nat in Hb by lia.
    exact Hb.
  - rewrite <- E. cbn [Gf2.clmul]. rewrite Z.shiftl_0_l, Z.lxor_0_l.
    unfold cur. rewrite poly_of_bits_app_zeros. reflexivity.
Qed.

Lemma can_crc_remainder_witness :
  Forall is_bit [1; 0; 1; 1] /\
  exists q crc_value,
    0 <= q /\
    Can.calculate_crc [1; 0; 1; 1] = Some crc_value /\
    0 <= crc_value < 2 ^ 15 /\
    Z.shiftl (bits_value [1; 0; 1; 1]) 15
    = Z.lxor (Gf2.clmul q CAN_GENERATOR) crc_value.
Proof.
  assert (H : Forall is_bit [1; 0; 1; 1])
    by (repeat constructor; unfold is_bit; lia).
  split; [exact H|].
  exact (can_crc_remainder [1; 0; 1; 1] H).
Defined.


(** * The CAN frame validator *)

Section CanFrames.
Import Can.

Lemma bits_of_succ (width : nat) (value : Z) :
  bits_of (S width) value
  = bits_of width (Z.shiftr value 1) ++ [Z.land value 1].
Proof.
  unfold bits_of. rewrite seq_S, map_app. cbn [map Nat.add].
  f_equal.
  - apply map_ext_in. intros i Hi. apply in_seq in Hi.
    rewrite Z.shiftr_shiftr by lia. f_equal. f_equal. lia.
  - replace (S width - 1 - width)%nat with 0%nat by lia.
    cbn [Z.of_nat]. rewrite Z.shiftr_0_r. reflexivity.
Qed.

Lemma bits_of_length (width : nat) (value : Z) :
  length (bits_of width value) = width.
Proof. unfold bits_of. rewrite length_map, length_seq. reflexivity. Qed.

Lemma land_1_bit (v : Z) : is_bit (Z.land v 1).
Proof.
  change 1 with (Z.ones 1) at 1. rewrite Z.land_ones by lia.
  change (2 ^ 1) with 2. unfold is_bit.
  pose proof (Z.mod_pos_bound v 2 ltac:(lia)). lia.
Qed.

Lemma bits_of_bits (width : nat) (value : Z) :
  Forall is_bit (bits_of width value).
Proof.
  unfold bits_of. apply Forall_map, Forall_forall.
  intros i _. apply land_1_bit.
Qed.

Lemma lor_shift_low_bit (v : Z) :
  Z.lor (Z.shiftl (Z.shiftr v 1) 1) (Z.land v 1) = v.
Proof.
  apply Z.bits_inj'. intros n Hn.
  rewrite Z.lor_spec, Z.land_spec.
  destruct (Z.eq_dec n 0) as [->|Hne].
  - rewrite Z.shiftl_spec_low by lia. cbn [orb].
    change (Z.testbit 1 0) with true. apply andb_true_r.
  - rewrite Z.shiftl_spec, Z.shiftr_spec by lia.
    replace (n - 1 + 1) with n by lia.
    assert (H1 : Z.testbit 1 n = false)
      by (apply (Z.pow2_bits_false 0 n); lia).
    rewrite H1, andb_false_r. apply orb_false_r.
Qed.

Lemma bits_value_bits_of (width : nat) (value : Z) :
  0 <= value < 2 ^ Z.of_nat width ->
  bits_value (bits_of width value) = value.
Proof.
  revert value. induction width as [|width IH]; intros value Hv.
  - change (2 ^ Z.of_nat 0) with 1 in Hv. assert (value = 0) by lia.
    subst. reflexivity.
  - rewrite bits_of_succ. unfold bits_value. rewrite fold_left_app.
    cbn [fold_left]. fold (bits_value (bits_of width (Z.shiftr value 1))).
    rewrite IH; [apply lor_shift_low_bit|].
    rewrite Z.shiftr_div_pow2 by lia. change (2 ^ 1) with 2.
    rewrite Nat2Z.inj_succ, Z.pow_succ_r in Hv by lia.
    split; [apply Z.div_pos; lia|].
    apply Z.div_lt_upper_bound; lia.
Qed.

(** X14.  For a row whose identifier is in 0..0x7FF and whose DLC is
    in 0..8, [parse_can_frame] gives 11 identifier bits and 4 DLC bits that
    spell those numbers most significant bit first, and 8 data bits per
    data byte; every item is 0 or 1. *)
Theorem parse_can_frame_bits (r : row) :
  0 <= row_id r <= 0x7FF -> 0 <= row_dlc r <= 8 ->
  let f := parse_can_frame r in
  exists idb,
    id_bits f = Some idb /\
    length idb = 11%nat /\ bits_value idb = row_id r /\
    length (dlc_bits f) = 4%nat /\ bits_value (dlc_bits f) = row_dlc r /\
    length (data_bits f) = (8 * length (row_data r))%nat /\
    Forall is_bit (idb ++ dlc_bits f ++ data_bits f).
Proof.
  intros Hid Hdlc. cbv zeta. unfold parse_can_frame.
  cbn [id_bits dlc_bits data_bits].
  destruct (Z.gtb_spec (row_id r) 0x7FF) as [|_]; [lia|].
  exists (bits_of 11 (row_id r)).
  split; [reflexivity|]. split; [apply bits_of_length|].
  split; [apply bits_value_bits_of; cbn; lia|].
  split; [apply bits_of_length|].
  split; [apply bits_value_bits_of; cbn; lia|].
  split.
  - induction (row_data r) as [|b l IH]; [reflexivity|].
    cbn [flat_map length]. rewrite length_app, bits_of_length, IH. lia.
  - repeat (apply Forall_app; split); try apply bits_of_bits.
    apply Forall_flat_map, Forall_forall. intros b _. apply bits_of_bits.
Qed.

Ltac verdict_cases :=
  split; [reflexivity|];
  intuition (try discriminate; try lia; try congruence).

(** X15.  Every row gets a verdict, in this order of precedence:
    [bad_id] exactly when the identifier exceeds 0x7FF; otherwise
    [bad_dlc] exactly when the DLC is outside 0..8; otherwise
    [mismatch_of_dlc_and_data_frame] exactly when the number of data bytes
    differs from the DLC; and [none] exactly when all three checks pass and
    the row's CRC is the one [calculate_crc] computes over the frame's
    bits. *)
Theorem verdict_of_row (r : row) :
  let f := parse_can_frame r in
  let count := Z.of_nat (length (row_data r)) in
  exists e,
    verdict f = Some e /\
    (e = bad_id <-> row_id r > 0x7FF) /\
    (e = bad_dlc <-> row_id r <= 0x7FF /\ ~ 0 <= row_dlc r <= 8) /\
    (e = mismatch_of_dlc_and_data_frame <->
       row_id r <= 0x7FF /\ 0 <= row_dlc r <= 8 /\ count <> row_dlc r) /\
    (e = none <->
       row_id r <= 0x7FF /\ 0 <= row_dlc r <= 8 /\ count = row_dlc r /\
       calculate_crc (all_bits f (bits_of 11 (row_id r))) = Some (row_crc r)).
Proof.
  cbv zeta. unfold verdict, parse_can_frame.
  cbn [id_valid dlc_valid id_bits data_length_match expected_crc].
  destruct (Z.gtb_spec (row_id r) 0x7FF) as [Hid|Hid]; cbn [negb andb].
  - exists bad_id. verdict_cases.
  - destruct (Z.leb_spec 0 (row_dlc r)) as [Hlo|Hlo];
      [destruct (Z.leb_spec (row_dlc r) 8) as [Hhi|Hhi]|]; cbn [negb andb].
    + match goal with |- context [calculate_crc ?bits] =>
        pose proof (calculate_crc_remainder_bits bits) as Ec;
        destruct (calculate_crc bits) as [calculated_crc|]
      end; [clear Ec|discriminate].
      destruct (Z.eqb_spec (Z.of_nat (length (row_data r))) (row_dlc r))
        as [Hlen|Hlen]; cbn [negb].
      * destruct (Z.eqb_spec calculated_crc (row_crc r)) as [Hcrc|Hcrc];
          cbn [negb].
        -- exists none. verdict_cases.
        -- exists bad_crc. verdict_cases.
      * exists mismatch_of_dlc_and_data_frame. verdict_cases.
    + exists bad_dlc. verdict_cases.
    + exists bad_dlc. verdict_cases.
Qed.

End CanFrames.

Lemma parse_can_frame_bits_witness :
  (0 <= Can.row_id (Can.mk_row 0x123 0 0 2 [0xAB; 0xCD] 0) <= 0x7FF
   /\ 0 <= Can.row_dlc (Can.mk_row 0x123 0 0 2 [0xAB; 0xCD] 0) <= 8) /\
  let r := Can.mk_row 0x123 0 0 2 [0xAB; 0xCD] 0 in
  let f := Can.parse_can_frame r in
  exists idb,
    Can.id_bits f = Some idb /\
    length idb = 11%nat /\ bits_value idb = Can.row_id r /\
    length (Can.dlc_bits f) = 4%nat /\
    bits_value (Can.dlc_bits f) = Can.row_dlc r /\
    length (Can.data_bits f) = (8 * length (Can.row_data r))%nat /\
    Forall is_bit (idb ++ Can.dlc_bits f ++ Can.data_bits f).
Proof.
  assert (Hid : 0 <= Can.row_id (Can.mk_row 0x123 0 0 2 [0xAB; 0xCD] 0) <= 0x7FF)
    by (cbn; lia).
  assert (Hdlc : 0 <= Can.row_dlc (Can.mk_row 0x123 0 0 2 [0xAB; 0xCD] 0) <= 8)
    by (cbn; lia).
  split; [exact (conj Hid Hdlc)|].
  exact (parse_can_frame_bits (Can.mk_row 0x123 0 0 2 [0xAB; 0xCD] 0) Hid Hdlc).
Defined.
